(** * itertools: a shallow embedding of [itertools.go] and its properties

    The Go package is a port of a few functions of Python's itertools to
    slices of [int].  Every function is embedded below, next to the
    source lines it comes from:

    - an [int] is a [Z]; where the source does arithmetic on values the
      caller chooses ([Count]) the 64-bit two's-complement wrap-around is
      written out with [wrap];
    - a slice is a [list]; the [nil] slice and the empty slice are both
      [[]] (no function of the package tells them apart other than by
      length);
    - indexing and [make] can panic, and the [for { ... }] loops of the
      generators have no syntactic bound, so these functions return an
      [exec]: a value, a panic, or "the loop budget [fuel] ran out". *)

From stdpp Require Import base numbers list sorting.
From Stdlib Require Import ZArith Lia.

#[local] Open Scope Z_scope.

(** ** The Go run time *)

Module Go.

Inductive exec (A : Type) : Type :=
  | Ok (a : A)
  | Panic
  | OutOfFuel.
Arguments Ok {A} a.
Arguments Panic {A}.
Arguments OutOfFuel {A}.

Definition bind {A B} (m : exec A) (k : A → exec B) : exec B :=
  match m with
  | Ok a => k a
  | Panic => Panic
  | OutOfFuel => OutOfFuel
  end.

(** [int] on a 64-bit target. *)
Definition int_min : Z := - 2 ^ 63.
Definition int_max : Z := 2 ^ 63 - 1.
Definition is_int (z : Z) : Prop := int_min ≤ z ≤ int_max.
Definition wrap (z : Z) : Z := (z + 2 ^ 63) mod 2 ^ 64 - 2 ^ 63.

(** [len(s)] *)
Definition len {A} (s : list A) : Z := Z.of_nat (length s).

(** [s[i]] as an expression: panics out of range. *)
Definition get {A} (s : list A) (i : Z) : exec A :=
  if i <? 0 then Panic
  else match s !! Z.to_nat i with
       | Some x => Ok x
       | None => Panic
       end.

(** [s[i] = x]: panics out of range. *)
Definition set {A} (s : list A) (i : Z) (x : A) : exec (list A) :=
  if (i <? 0) || (len s <=? i) then Panic
  else Ok (<[Z.to_nat i := x]> s).

(** [make([]int, n)]: panics when [n] is negative. *)
Definition make (n : Z) : exec (list Z) :=
  if n <? 0 then Panic else Ok (replicate (Z.to_nat n) 0).

(** [for j := lo; j < hi; j += 1 { s = body(j, s) }], unrolled [cnt]
    times from [j]; it is started with [cnt = hi - lo]. *)
Fixpoint for_up {S} (cnt : nat) (j : Z) (body : Z → S → exec S) (s : S)
  : exec S :=
  match cnt with
  | O => Ok s
  | S cnt' => bind (body j s) (for_up cnt' (j + 1) body)
  end.

(** A fresh slice filled position by position:
    [r := make([]B, len(l)); for j, v := range l { r[j] = f(v) }]. *)
Fixpoint fill_from {A B} (f : A → exec B) (l : list A) : exec (list B) :=
  match l with
  | [] => Ok []
  | v :: l' =>
      bind (f v) (λ x, bind (fill_from f l') (λ xs, Ok (x :: xs)))
  end.

(** [for k, el := range idxs { result[k] = pool[el] }] into a fresh
    [result] of the same length. *)
Definition gather (pool : list Z) (idxs : list Z) : exec (list Z) :=
  fill_from (get pool) idxs.

(** [a % b] on [int]s: the remainder of the division that truncates
    toward zero; a run-time panic when [b] is zero. *)
Definition rem (a b : Z) : exec Z :=
  if b =? 0 then Panic else Ok (Z.rem a b).

End Go.

Import Go.

#[global] Instance exec_ret : MRet exec := λ A, Ok.
#[global] Instance exec_bind : MBind exec := λ A B k m, bind m k.

(** ** The package *)

Module Itertools.

(** *** Count (lines 12-26) *)

(** The loop [for i := start; cond; i += step { results = append(results, i) }]. *)
Fixpoint Count_loop (fuel : nat) (stop step i : Z) (results : list Z)
  : exec (list Z) :=
  if ((step >? 0) && (i <? stop)) || ((step <? 0) && (i >? stop)) then
    match fuel with
    | O => OutOfFuel
    | S fuel' =>
        Count_loop fuel' stop step (wrap (i + step)) (results ++ [i])
    end
  else Ok results.

Definition Count (fuel : nat) (start stop step : Z) : exec (list Z) :=
  if wrap (step * wrap (stop - start)) <=? 0 then Ok []
  else Count_loop fuel stop step start [].

(** *** Cycle (lines 32-46) *)

Definition Cycle (iterable : list Z) (n : Z) : exec (list Z) :=
  let m := len iterable in
  if (n <? 0) || (m =? 0) then Ok []
  else
    results ← make n;
    for_up (length results) 0
      (λ i results, k ← rem i m; v ← get iterable k; set results i v)
      results.

(** *** Repeat (lines 51-64) *)

Definition Repeat (element n : Z) : exec (list Z) :=
  if n <? 0 then Ok []
  else
    results ← make n;
    for_up (length results) 0 (λ i results, set results i element) results.

(** *** Chain (lines 70-80) *)

Definition Chain (iterables : list (list Z)) : list Z :=
  let results := [] in
  foldl (λ results v, results ++ v) results iterables.

(** *** Compress (lines 88-105) *)

Definition Compress (data selectors : list Z) : exec (list Z) :=
  let n := len data in
  let n := if len selectors <? n then len selectors else n in
  for_up (Z.to_nat (n - 0)) 0
    (λ i results,
       s ← get selectors i;
       if s >? 0 then d ← get data i; Ok (results ++ [d])
       else Ok results)
    [].

(** *** DropWhile (lines 111-129) *)

Definition DropWhile (predicate : option (Z → bool)) (iterable : list Z)
  : list Z :=
  let results := [] in
  match predicate with
  | Some p =>
      snd (foldl
             (λ '(drop, results) v,
                if drop && p v then (drop, results)
                else (false, results ++ [v]))
             (true, results) iterable)
  | None => results
  end.

(** *** TakeWhile (lines 135-151) *)

Fixpoint TakeWhile_loop (p : Z → bool) (iterable results : list Z)
  : list Z :=
  match iterable with
  | [] => results
  | v :: rest =>
      if p v then TakeWhile_loop p rest (results ++ [v])
      else results (* break *)
  end.

Definition TakeWhile (predicate : option (Z → bool)) (iterable : list Z)
  : list Z :=
  let results := [] in
  match predicate with
  | Some p => TakeWhile_loop p iterable results
  | None => results
  end.

(** *** IFilter (lines 159-179) *)

Definition IFilter (predicate : option (Z → bool)) (iterable : list Z)
  : list Z :=
  let results := [] in
  match predicate with
  | Some p =>
      foldl (λ results v, if p v then results ++ [v] else results)
        results iterable
  | None =>
      foldl (λ results v, if v >? 0 then results ++ [v] else results)
        results iterable
  end.

(** *** IFilterFalse (lines 187-208) *)

Definition IFilterFalse (predicate : option (Z → bool)) (iterable : list Z)
  : list Z :=
  let results := [] in
  match predicate with
  | Some p =>
      foldl (λ results v, if negb (p v) then results ++ [v] else results)
        results iterable
  | None =>
      foldl (λ results v, if negb (v >? 0) then results ++ [v] else results)
        results iterable
  end.

(** *** IZip (lines 216-243) *)

Definition IZip (iterables : list (list Z)) : exec (list (list Z)) :=
  match iterables with
  | [] => Ok []
  | first :: rest =>
      let size :=
        foldl (λ size v, if len v <? size then len v else size)
          (len first) rest in
      for_up (Z.to_nat (size - 0)) 0
        (λ i results,
           newresult ← fill_from (λ v, get v i) iterables;
           Ok (results ++ [newresult]))
        []
  end.

(** *** IZipLongest (lines 251-283) *)

Definition IZipLongest (fillvalue : Z) (iterables : list (list Z))
  : exec (list (list Z)) :=
  match iterables with
  | [] => Ok []
  | first :: rest =>
      let size :=
        foldl (λ size v, if len v >? size then len v else size)
          (len first) rest in
      for_up (Z.to_nat (size - 0)) 0
        (λ i results,
           newresult ←
             fill_from
               (λ v, if i <? len v then get v i else Ok fillvalue)
               iterables;
           Ok (results ++ [newresult]))
        []
  end.

(** *** Product (lines 288-330) *)

(** Lines 294-300: [result[i] = pools[i][0]] for each pool in turn;
    [None] is the [return nil] taken at the first empty pool. *)
Fixpoint Product_first (pools : list (list Z)) : option (list Z) :=
  match pools with
  | [] => Some []
  | pool :: pools' =>
      match pool with
      | [] => None
      | x :: _ => cons x <$> Product_first pools'
      end
  end.

(** Lines 305-318: the scan [for ; i >= 0; i -= 1] entered with
    [i = k - 1].  It returns the value of [i] on exit ([-1] when the
    carry ran off the first pool) with the updated slices. *)
Fixpoint Product_scan (pools : list (list Z)) (k : nat)
    (indices result : list Z) : exec (Z * list Z * list Z) :=
  match k with
  | O => Ok (-1, indices, result)
  | S k' =>
      let i := Z.of_nat k' in
      pool ← get pools i;
      v ← get indices i;
      indices ← set indices i (v + 1);
      v ← get indices i;
      if v =? len pool then
        indices ← set indices i 0;
        p0 ← get pool 0;
        result ← set result i p0;
        Product_scan pools k' indices result
      else
        pv ← get pool v;
        result ← set result i pv;
        Ok (i, indices, result) (* break *)
  end.

(** Lines 304-327.  [results[0]] is the slice [result] itself and not a
    copy of it, so every later write to [result] shows through
    [results[0]]: [results] is [result :: appended], where [appended]
    holds the copies made at lines 324-326. *)
Fixpoint Product_loop (fuel : nat) (pools : list (list Z)) (npools : Z)
    (indices result : list Z) (appended : list (list Z))
  : exec (list (list Z)) :=
  match fuel with
  | O => OutOfFuel
  | S fuel' =>
      '(i, indices, result) ←
        Product_scan pools (Z.to_nat (npools - 1 + 1)) indices result;
      if i <? 0 then Ok (result :: appended)
      else
        let newresult := result in
        Product_loop fuel' pools npools indices result
          (appended ++ [newresult])
  end.

Definition Product (fuel : nat) (args : list (list Z))
  : exec (list (list Z)) :=
  let pools := args in
  let npools := len pools in
  indices ← make npools;
  match Product_first pools with
  | None => Ok []
  | Some result => Product_loop fuel pools npools indices result []
  end.

(** *** Permutations (lines 340-399) *)

(** Lines 366-389: the scan [for ; i >= 0; i -= 1] entered with
    [i = k - 1]; it returns [i] on exit with the updated slices.  The
    tuple of lines 380-385 is built by the caller, which sees
    [i >= 0] exactly when the scan left through [break]. *)
Fixpoint Permutations_scan (n : Z) (k : nat) (indices cycles : list Z)
  : exec (Z * list Z * list Z) :=
  match k with
  | O => Ok (-1, indices, cycles)
  | S k' =>
      let i := Z.of_nat k' in
      c ← get cycles i;
      cycles ← set cycles i (c - 1);
      c ← get cycles i;
      if c =? 0 then
        index ← get indices i;
        indices ←
          for_up (Z.to_nat (n - 1 - i)) i
            (λ j indices, v ← get indices (j + 1); set indices j v)
            indices;
        indices ← set indices (n - 1) index;
        cycles ← set cycles i (n - i);
        Permutations_scan n k' indices cycles
      else
        let j := c in
        a ← get indices (n - j);
        b ← get indices i;
        indices ← set indices i a;
        indices ← set indices (n - j) b;
        Ok (i, indices, cycles) (* break *)
  end.

(** Lines 365-395. *)
Fixpoint Permutations_loop (fuel : nat) (pool : list Z) (n r : Z)
    (indices cycles : list Z) (results : list (list Z))
  : exec (list (list Z)) :=
  match fuel with
  | O => OutOfFuel
  | S fuel' =>
      if n >? 0 then
        '(i, indices, cycles) ←
          Permutations_scan n (Z.to_nat (r - 1 + 1)) indices cycles;
        if i <? 0 then Ok results
        else
          result ←
            fill_from (λ k, el ← get indices k; get pool el) (seqZ 0 r);
          Permutations_loop fuel' pool n r indices cycles
            (results ++ [result])
      else Ok []
  end.

Definition Permutations (fuel : nat) (iterable : list Z) (r : Z)
  : exec (list (list Z)) :=
  let pool := iterable in
  let n := len pool in
  if (r >? n) || (r =? 0) then Ok []
  else
    indices ← make n;
    indices ←
      for_up (length indices) 0 (λ i indices, set indices i i) indices;
    cycles ← make r;
    cycles ←
      for_up (length cycles) 0 (λ i cycles, set cycles i (n - i)) cycles;
    result ← gather pool (take (Z.to_nat r) indices);
    Permutations_loop fuel pool n r indices cycles [result].

(** *** Combinations (lines 408-453) *)

(** Line 431: [for ; i >= 0 && indices[i] == i+n-r; i -= 1 {}] entered
    with [i = k - 1]; returns [i] on exit. *)
Fixpoint Combinations_scan (n r : Z) (k : nat) (indices : list Z)
  : exec Z :=
  match k with
  | O => Ok (-1)
  | S k' =>
      let i := Z.of_nat k' in
      v ← get indices i;
      if v =? i + n - r then Combinations_scan n r k' indices
      else Ok i
  end.

(** Lines 429-450. *)
Fixpoint Combinations_loop (fuel : nat) (pool : list Z) (n r : Z)
    (indices : list Z) (results : list (list Z))
  : exec (list (list Z)) :=
  match fuel with
  | O => OutOfFuel
  | S fuel' =>
      i ← Combinations_scan n r (Z.to_nat (r - 1 + 1)) indices;
      if i <? 0 then Ok results
      else
        v ← get indices i;
        indices ← set indices i (v + 1);
        indices ←
          for_up (Z.to_nat (r - (i + 1))) (i + 1)
            (λ j indices, v ← get indices (j - 1); set indices j (v + 1))
            indices;
        result ← gather pool indices;
        Combinations_loop fuel' pool n r indices (results ++ [result])
  end.

Definition Combinations (fuel : nat) (iterable : list Z) (r : Z)
  : exec (list (list Z)) :=
  let pool := iterable in
  let n := len pool in
  if (r >? n) || (r =? 0) then Ok []
  else
    indices ← make r;
    indices ←
      for_up (length indices) 0 (λ i indices, set indices i i) indices;
    result ← gather pool indices;
    Combinations_loop fuel pool n r indices [result].

End Itertools.

Import Itertools.

(** ** What the generators enumerate *)

Module Spec.

(** The tuple selected from [pool] by a sequence of positions. *)
Definition image (pool : list Z) (p : list nat) : list Z :=
  (λ i, nth i pool 0) <$> p.

(** One element of each pool, the last pool varying fastest. *)
Fixpoint cart {A} (pools : list (list A)) : list (list A) :=
  match pools with
  | [] => [[]]
  | pool :: pools' => x ← pool; cons x <$> cart pools'
  end.

Definition prod_list (l : list nat) : nat := foldr Nat.mul 1%nat l.

(** The digits of [k] in the mixed radix [lens], most significant
    first: the reading of an odometer with one wheel of size [L] per
    entry of [lens] after [k] ticks. *)
Fixpoint odometer (lens : list nat) (k : nat) : list nat :=
  match lens with
  | [] => []
  | L :: lens' =>
      (k / prod_list lens')%nat :: odometer lens' (k mod prod_list lens')
  end.

(** The tuple that picks position [d] of each pool. *)
Definition pick {A} (d : A) (pools : list (list A)) (ds : list nat)
  : list A :=
  zip_with (λ pool i, nth i pool d) pools ds.

(** Every way of taking one element [x] out of [l], paired with what is
    left, by position of [x]; [pre] is put back in front of what is
    left. *)
Fixpoint picks_from {A} (pre l : list A) : list (A * list A) :=
  match l with
  | [] => []
  | x :: l' => (x, pre ++ l') :: picks_from (pre ++ [x]) l'
  end.

(** The sequences of [r] elements of [l] at pairwise different
    positions, ordered by position sequence. *)
Fixpoint arrangements {A} (r : nat) (l : list A) : list (list A) :=
  match r with
  | O => [[]]
  | S r' =>
      '(x, rest) ← picks_from [] l; cons x <$> arrangements r' rest
  end.

(** The subsequences of [l] of length [r], ordered by position
    sequence. *)
Fixpoint sublists {A} (r : nat) (l : list A) : list (list A) :=
  match l with
  | [] => match r with O => [[]] | S _ => [] end
  | x :: l' =>
      match r with
      | O => [[]]
      | S r' => (cons x <$> sublists r' l') ++ sublists r l'
      end
  end.

(** The position sequences behind [Permutations] and [Combinations]
    of [r] out of [n] elements. *)
Definition permutation_positions (n r : nat) : list (list nat) :=
  arrangements r (seq 0 n).

Definition combination_positions (n r : nat) : list (list nat) :=
  sublists r (seq 0 n).

(** Falling factorials: [m (m-1) ... (m-r+1)]. *)
Fixpoint ffact (m r : nat) : nat :=
  match r with
  | O => 1
  | S r' => m * ffact (m - 1) r'
  end%nat.

(** Binomial coefficients, by Pascal's rule. *)
Fixpoint choose (n r : nat) : nat :=
  match n, r with
  | _, O => 1
  | O, S _ => 0
  | S n', S r' => choose n' r' + choose n' r
  end%nat.

(** Lexicographic order on position sequences. *)
Inductive lex_lt : list nat → list nat → Prop :=
  | lex_lt_nil y q : lex_lt [] (y :: q)
  | lex_lt_head x y p q : (x < y)%nat → lex_lt (x :: p) (y :: q)
  | lex_lt_tail x p q : lex_lt p q → lex_lt (x :: p) (x :: q).

(** The values [Count] is documented to return, on unbounded integers:
    [start + k * step] for the [k] that keep it on the near side of
    [stop]. *)
Definition range_len (start stop step : Z) : Z :=
  if step >? 0 then (stop - start + step - 1) / step
  else if step <? 0 then (start - stop - step - 1) / (- step)
  else 0.

Definition range (start stop step : Z) : list Z :=
  (λ k, start + k * step) <$> seqZ 0 (range_len start stop step).

End Spec.

Import Spec.

(** ** The generators, one level at a time

    The three generators scan their index slice from the right.  Seen
    from the left, the scan is a recursion on the slice: the levels to
    the right of a position are advanced first, and the position itself
    only moves when they wrapped around.  These are the functions the
    loops are compared with; [true] stands for "moved to the next
    tuple", [false] for "wrapped around". *)

Module Steps.

(** [Product]: one tick of the odometer with wheels [lens]. *)
Fixpoint incr (lens : list Z) (ds : list Z) : bool * list Z :=
  match lens, ds with
  | L :: lens', d :: ds' =>
      let '(b, ds'') := incr lens' ds' in
      if b then (true, d :: ds'')
      else if d + 1 =? L then (false, 0 :: ds'')
      else (true, d + 1 :: ds'')
  | _, _ => (false, ds)
  end.

(** The tuple [Product] holds in [result] when [indices] is [ds]. *)
Definition select (pools : list (list Z)) (ds : list Z) : list Z :=
  zip_with (λ pool d, nth (Z.to_nat d) pool 0) pools ds.

(** [ds] has one position of each pool. *)
Definition in_pools (pools : list (list Z)) (ds : list Z) : Prop :=
  Forall2 (λ d pool, 0 ≤ d < len pool) ds pools.

(** The tuple at the positions [idx] of one pool, and [idx] being
    positions of it. *)
Definition imageZ (pool : list Z) (idx : list Z) : list Z :=
  (λ i, nth (Z.to_nat i) pool 0) <$> idx.

Definition in_pool (pool : list Z) (idx : list Z) : Prop :=
  Forall (λ i, 0 ≤ i < len pool) idx.

(** [Combinations]: the next increasing sequence below [n]. *)
Fixpoint cnext (n : Z) (idx : list Z) : bool * list Z :=
  match idx with
  | [] => (false, [])
  | x :: rest =>
      let '(b, rest') := cnext n rest in
      if b then (true, x :: rest')
      else if x =? n - len (x :: rest') then (false, x :: rest')
      else (true, seqZ (x + 1) (len (x :: rest')))
  end.

(** Exchange the head of [l] with its element at position [q]. *)
Definition swap_head {A} (q : Z) (l : list A) : list A :=
  match l with
  | [] => []
  | x :: t =>
      match t !! Z.to_nat (q - 1) with
      | Some y => y :: <[Z.to_nat (q - 1) := x]> t
      | None => l
      end
  end.

(** [Permutations]: the levels are the entries of [cycles]; [idx] is
    the part of [indices] from the current level on. *)
Fixpoint pnext {A} (idx : list A) (cyc : list Z)
  : bool * (list A * list Z) :=
  match cyc, idx with
  | c :: cs, x :: rest =>
      let '(b, (rest', cs')) := pnext rest cs in
      if b then (true, (x :: rest', c :: cs'))
      else if c - 1 =? 0 then
        (false, (rest' ++ [x], len (x :: rest') :: cs'))
      else
        (true, (swap_head (len (x :: rest') - (c - 1)) (x :: rest'),
                c - 1 :: cs'))
  | _, _ => (false, (idx, cyc))
  end.

Definition pstep {A} (s : list A * list Z) : bool * (list A * list Z) :=
  pnext s.1 s.2.

(** The counter of a level with [m] elements left lies in [1, m]. *)
Fixpoint cycles_ok (m : Z) (cyc : list Z) : Prop :=
  match cyc with
  | [] => True
  | c :: cs => 1 ≤ c ≤ m ∧ cycles_ok (m - 1) cs
  end.

(** The states of [Permutations] on [pool] with [r] levels. *)
Definition perm_state_ok (pool : list Z) (r : nat)
    (s : list Z * list Z) : Prop :=
  len s.1 = len pool ∧ in_pool pool s.1
  ∧ length s.2 = r ∧ cycles_ok (len pool) s.2.

(** The cycle counters of [r] levels over [m] elements:
    [m, m - 1, ..., m - r + 1]. *)
Fixpoint cycles0 (m : Z) (r : nat) : list Z :=
  match r with
  | O => []
  | S r' => m :: cycles0 (m - 1) r'
  end.

(** A run of a generator: [trace next s l s'] when, from [s], [next]
    moves through the states [l] ([s] first) and then wraps around to
    [s']. *)
Inductive trace {S} (next : S → bool * S) : S → list S → S → Prop :=
  | trace_last s s' :
      next s = (false, s') → trace next s [s] s'
  | trace_cons s s1 l s' :
      next s = (true, s1) → trace next s1 l s' →
      trace next s (s :: l) s'.

End Steps.

Import Steps.


(** ** Facts about the run time *)

Section Runtime.
Context {A : Type}.
Implicit Types (s : list A) (x : A).

Lemma len_nonneg s : 0 ≤ len s.
Proof. unfold len. lia. Qed.

Lemma len_app s1 s2 : len (s1 ++ s2) = len s1 + len s2.
Proof. unfold len. rewrite length_app. lia. Qed.

Lemma len_cons x s : len (x :: s) = 1 + len s.
Proof. unfold len. simpl. lia. Qed.

Lemma get_of_nat s (i : nat) x :
  s !! i = Some x → get s (Z.of_nat i) = Ok x.
Proof.
  intros H. unfold get.
  destruct (Z.ltb_spec (Z.of_nat i) 0); [lia|].
  by rewrite Nat2Z.id, H.
Qed.

Lemma get_Ok s (i : Z) x :
  0 ≤ i → s !! Z.to_nat i = Some x → get s i = Ok x.
Proof.
  intros Hi H. rewrite <- (Z2Nat.id i) by done. by apply get_of_nat.
Qed.

Lemma get_app_l s1 s2 (i : Z) :
  0 ≤ i < len s1 → get (s1 ++ s2) i = get s1 i.
Proof.
  unfold get, len. intros Hi.
  destruct (Z.ltb_spec i 0); [done|].
  rewrite lookup_app_l by lia. done.
Qed.

Lemma get_app_r s1 s2 (i : Z) :
  len s1 ≤ i → get (s1 ++ s2) i = get s2 (i - len s1).
Proof.
  unfold get, len. intros Hi.
  destruct (Z.ltb_spec i 0); [lia|].
  destruct (Z.ltb_spec (i - Z.of_nat (length s1)) 0); [lia|].
  rewrite lookup_app_r by lia.
  replace (Z.to_nat (i - Z.of_nat (length s1))) with (Z.to_nat i - length s1)%nat
    by lia.
  done.
Qed.

Lemma get_middle s1 s2 x (i : Z) :
  i = len s1 → get (s1 ++ x :: s2) i = Ok x.
Proof.
  intros ->. rewrite get_app_r by lia.
  rewrite Z.sub_diag. done.
Qed.

Lemma set_of_nat s (i : nat) x :
  (i < length s)%nat → set s (Z.of_nat i) x = Ok (<[i := x]> s).
Proof.
  intros H. unfold set, len.
  destruct (Z.ltb_spec (Z.of_nat i) 0); [lia|].
  destruct (Z.leb_spec (Z.of_nat (length s)) (Z.of_nat i)); [lia|].
  simpl. by rewrite Nat2Z.id.
Qed.

Lemma set_middle s1 s2 x y (i : Z) :
  i = len s1 → set (s1 ++ x :: s2) i y = Ok (s1 ++ y :: s2).
Proof.
  intros ->. unfold len. rewrite set_of_nat.
  - f_equal. rewrite insert_app_r_alt by lia.
    by rewrite Nat.sub_diag.
  - rewrite length_app. simpl. lia.
Qed.

End Runtime.

Lemma bind_Ok {A B} (m : exec A) (k : A → exec B) (b : B) :
  (m ≫= k) = Ok b → ∃ a, m = Ok a ∧ k a = Ok b.
Proof. destruct m; simpl; try done. eauto. Qed.

(** A range loop that appends at most one value per round builds
    [acc ++ concat of the rounds]. *)
Lemma for_up_append {B} (g : nat → list B)
    (body : Z → list B → exec (list B)) (cnt j : nat) (acc : list B) :
  (∀ i acc, (j ≤ i < j + cnt)%nat →
     body (Z.of_nat i) acc = Ok (acc ++ g i)) →
  for_up cnt (Z.of_nat j) body acc
  = Ok (acc ++ concat (g <$> seq j cnt)).
Proof.
  revert j acc. induction cnt as [|cnt IH]; intros j acc Hbody; simpl.
  - by rewrite app_nil_r.
  - rewrite Hbody by lia. simpl.
    replace (Z.of_nat j + 1) with (Z.of_nat (S j)) by lia.
    rewrite IH by (intros; apply Hbody; lia).
    by rewrite <- app_assoc.
Qed.

Lemma fill_from_Ok {A B} (f : A → exec B) (g : A → B) (l : list A) :
  Forall (λ v, f v = Ok (g v)) l → fill_from f l = Ok (g <$> l).
Proof.
  induction 1 as [|v l Hv _ IH]; simpl; [done|].
  by rewrite Hv, IH.
Qed.

Lemma gather_image (pool : list Z) (p : list nat) :
  Forall (λ i, (i < length pool)%nat) p →
  gather pool (Z.of_nat <$> p) = Ok (image pool p).
Proof.
  intros Hp. unfold gather, image.
  rewrite (fill_from_Ok _ (λ z, nth (Z.to_nat z) pool 0)).
  - rewrite <- list_fmap_compose. f_equal. apply list_fmap_ext.
    intros i x _. simpl. by rewrite Nat2Z.id.
  - rewrite Forall_fmap. eapply Forall_impl; [done|].
    intros i Hi. simpl in *. apply get_of_nat. rewrite Nat2Z.id.
    destruct (nth_lookup_or_length pool i 0); [done|lia].
Qed.


(** ** The single-pass utilities *)

Lemma foldl_append_filter (P : Z → Prop) `{∀ v, Decision (P v)}
    (f : Z → bool) (l acc : list Z) :
  (∀ v, f v = true ↔ P v) →
  foldl (λ results v, if f v then results ++ [v] else results) acc l
  = acc ++ filter P l.
Proof.
  intros Hf. revert acc. induction l as [|v l IH]; intros acc; simpl.
  - by rewrite app_nil_r.
  - rewrite IH. destruct (f v) eqn:E.
    + rewrite filter_cons_True by by apply Hf.
      by rewrite <- app_assoc.
    + rewrite filter_cons_False; [done|].
      rewrite <- Hf. congruence.
Qed.

Lemma concat_select {A B} (P : A → Prop) `{∀ i, Decision (P i)}
    (f : A → B) (l : list A) :
  concat ((λ i, if decide (P i) then [f i] else []) <$> l)
  = f <$> filter P l.
Proof.
  induction l as [|i l IH]; csimpl; [done|].
  rewrite IH. destruct (decide (P i)).
  - by rewrite filter_cons_True.
  - by rewrite filter_cons_False.
Qed.

Lemma concat_singletons {A B} (f : A → B) (l : list A) :
  concat ((λ i, [f i]) <$> l) = f <$> l.
Proof. induction l; csimpl; congruence. Qed.

Lemma longest_foldl (rest : list (list Z)) (a : nat) :
  foldl (λ size v, if len v >? size then len v else size) (Z.of_nat a) rest
  = Z.of_nat (a `max` max_list (length <$> rest)).
Proof.
  revert a. induction rest as [|v rest IH]; intros a; csimpl.
  - f_equal. lia.
  - destruct (Z.gtb_spec (len v) (Z.of_nat a)) as [Hlt|Hge]; unfold len in *.
    + rewrite IH. f_equal. lia.
    + rewrite IH. f_equal. lia.
Qed.

(** C7. [Compress] keeps, in order, the [data[i]] with [i] below the
    length of the shorter input and [selectors[i] > 0]; on the documented
    example it returns [[2; 3]]. *)
Theorem Compress_spec (data selectors : list Z) :
  Compress data selectors
  = Ok ((λ i, nth i data 0)
          <$> filter (λ i, 0 < nth i selectors 0)
                (seq 0 (length data `min` length selectors)))
  ∧ Compress [1; 2; 3] [0; 1; 1] = Ok [2; 3].
Proof.
  split; [|reflexivity].
  unfold Compress. rewrite Z.sub_0_r.
  set (n := if len selectors <? len data then len selectors else len data).
  assert (Hn : Z.to_nat n = (length data `min` length selectors)%nat).
  { subst n. unfold len.
    destruct (Z.ltb_spec (Z.of_nat (length selectors))
                (Z.of_nat (length data))); lia. }
  rewrite Hn. change 0 with (Z.of_nat 0) at 1.
  rewrite for_up_append with
    (g := λ i, if decide (0 < nth i selectors 0) then [nth i data 0] else []).
  - simpl. by rewrite concat_select.
  - intros i acc Hi.
    destruct (nth_lookup_or_length selectors i 0) as [Hs|]; [|lia].
    destruct (nth_lookup_or_length data i 0) as [Hd|]; [|lia].
    rewrite (get_of_nat _ _ _ Hs). simpl.
    destruct (Z.gtb_spec (nth i selectors 0) 0), (decide (0 < nth i selectors 0));
      try lia.
    + by rewrite (get_of_nat _ _ _ Hd).
    + by rewrite app_nil_r.
Qed.

(** C8. [IZipLongest] returns as many tuples as the longest input has
    elements; tuple [i] has one component per input, the [j]-th being
    element [i] of input [j] where that exists and the fill value
    otherwise. *)
Theorem IZipLongest_spec (fillvalue : Z) (iterables : list (list Z)) :
  ∃ results,
    IZipLongest fillvalue iterables = Ok results
    ∧ length results = max_list (length <$> iterables)
    ∧ ∀ i t, results !! i = Some t →
        length t = length iterables
        ∧ ∀ j v, iterables !! j = Some v →
            t !! j = Some (default fillvalue (v !! i)).
Proof.
  exists ((λ i, (λ v : list Z, default fillvalue (v !! i)) <$> iterables)
            <$> seq 0 (max_list (length <$> iterables))).
  split; [|split].
  - destruct iterables as [|first rest]; [done|].
    unfold IZipLongest. unfold len at 3.
    rewrite longest_foldl, Z.sub_0_r, Nat2Z.id.
    change 0 with (Z.of_nat 0) at 1.
    rewrite for_up_append with
      (g := λ i, [(λ v : list Z, default fillvalue (v !! i)) <$> first :: rest]).
    + simpl. by rewrite concat_singletons.
    + intros i acc _.
      rewrite fill_from_Ok with (g := λ v : list Z, default fillvalue (v !! i));
        [done|].
      apply Forall_forall. intros v _. unfold len.
      destruct (Z.ltb_spec (Z.of_nat i) (Z.of_nat (length v))).
      * destruct (lookup_lt_is_Some_2 v i) as [x Hx]; [lia|].
        rewrite Hx. by apply get_of_nat.
      * rewrite lookup_ge_None_2 by lia. done.
  - by rewrite length_fmap, length_seq.
  - intros i t Ht. apply list_lookup_fmap_Some in Ht as (k & -> & Hk).
    apply lookup_seq in Hk as [-> _]. simpl.
    split; [by rewrite length_fmap|].
    intros j v Hv. by rewrite list_lookup_fmap, Hv.
Qed.

(** C9. Without a predicate [IFilter] keeps the elements greater than 0
    and [IFilterFalse] the others, which is what they do with the
    predicate "value > 0". *)
Theorem IFilter_nil_predicate (s : list Z) :
  IFilter None s = filter (λ v, 0 < v) s
  ∧ IFilterFalse None s = filter (λ v, v ≤ 0) s
  ∧ IFilter None s = IFilter (Some (λ v, v >? 0)) s
  ∧ IFilterFalse None s = IFilterFalse (Some (λ v, v >? 0)) s.
Proof.
  repeat split; try reflexivity; unfold IFilter, IFilterFalse.
  - rewrite (foldl_append_filter (λ v, 0 < v) (λ v, v >? 0)); [done|].
    intros v. destruct (Z.gtb_spec v 0); split; (done || lia).
  - rewrite (foldl_append_filter (λ v, v ≤ 0) (λ v, negb (v >? 0))); [done|].
    intros v. destruct (Z.gtb_spec v 0); simpl; split; (done || lia).
Qed.

(** C10. Without a predicate [DropWhile] and [TakeWhile] return the empty
    sequence; [DropWhile] does not hand a non-empty input back. *)
Theorem DropWhile_TakeWhile_nil_predicate (s : list Z) :
  DropWhile None s = []
  ∧ TakeWhile None s = []
  ∧ ∀ v, DropWhile None (v :: s) ≠ v :: s.
Proof. repeat split; done. Qed.

(** C5. With [r = 0] or [r] above the length of the pool, [Permutations]
    and [Combinations] return the empty sequence: no panic, and no round
    of the main loop is needed. *)
Theorem degenerate_r_empty (fuel : nat) (pool : list Z) (r : Z) :
  r = 0 ∨ r > len pool →
  Permutations fuel pool r = Ok [] ∧ Combinations fuel pool r = Ok [].
Proof.
  intros Hr. unfold Permutations, Combinations.
  assert ((r >? len pool) || (r =? 0) = true) as ->; [|done].
  destruct (Z.gtb_spec r (len pool)), (Z.eqb_spec r 0); simpl; (done || lia).
Qed.

Lemma degenerate_r_empty_witness :
  (3 = 0 ∨ 3 > len [1; 2 : Z])
  ∧ Permutations 0 [1; 2] 3 = Ok [] ∧ Combinations 0 [1; 2] 3 = Ok [].
Proof.
  assert (H : 3 = 0 ∨ 3 > len [1; 2 : Z]) by (right; reflexivity).
  split; [exact H|]. apply (degenerate_r_empty 0 [1; 2] 3 H).
Defined.

(** C4. [Product] of no pools is the single empty tuple (after the one
    round of the main loop that finds nothing to advance). *)
Theorem Product_no_pools (fuel : nat) : Product (S fuel) [] = Ok [[]].
Proof. reflexivity. Qed.

(** The documented calls. *)
Example Product_documented :
  Product 4 [[1; 2]; [3; 4]] = Ok [[1; 3]; [1; 4]; [2; 3]; [2; 4]].
Proof. reflexivity. Qed.

Example Permutations_documented :
  Permutations 6 [1; 2; 3] 3
  = Ok [[1; 2; 3]; [1; 3; 2]; [2; 1; 3]; [2; 3; 1]; [3; 1; 2]; [3; 2; 1]].
Proof. reflexivity. Qed.

Example Combinations_documented :
  Combinations 5 [1; 2; 3; 4; 5] 4
  = Ok [[1; 2; 3; 4]; [1; 2; 3; 5]; [1; 2; 4; 5]; [1; 3; 4; 5]; [2; 3; 4; 5]].
Proof. reflexivity. Qed.

Example IZipLongest_documented :
  IZipLongest 0 [[10; 20; 30]; [1; 2]] = Ok [[10; 1]; [20; 2]; [30; 0]].
Proof. reflexivity. Qed.

Example IFilter_documented :
  IFilter None [-2; -1; 0; 1; 2] = [1; 2]
  ∧ IFilterFalse None [-2; -1; 0; 1; 2] = [-2; -1; 0].
Proof. split; reflexivity. Qed.


(** ** Count *)

Lemma wrap_id (z : Z) : is_int z → wrap z = z.
Proof.
  unfold is_int, int_min, int_max, wrap. intros Hz.
  rewrite Z.mod_small; lia.
Qed.

Lemma range_nil (start stop step : Z) :
  step * (stop - start) ≤ 0 → range start stop step = [].
Proof.
  intros H. unfold range, range_len.
  assert (∀ n, n ≤ 0 → seqZ 0 n = []) as Hnil.
  { intros n Hn. unfold seqZ. by replace (Z.to_nat n) with 0%nat by lia. }
  destruct (Z.gtb_spec step 0); [|destruct (Z.ltb_spec step 0)].
  - rewrite Hnil; [done|].
    assert (stop - start + step - 1 < step * 1) by nia.
    assert ((stop - start + step - 1) / step < 1); [|lia].
    apply Z.div_lt_upper_bound; lia.
  - rewrite Hnil; [done|].
    assert (start - stop - step - 1 < (- step) * 1) by nia.
    assert ((start - stop - step - 1) / (- step) < 1); [|lia].
    apply Z.div_lt_upper_bound; lia.
  - by rewrite Hnil.
Qed.

Lemma range_len_step (i stop step : Z) :
  (step > 0 ∧ i < stop) ∨ (step < 0 ∧ i > stop) →
  range_len i stop step = 1 + range_len (i + step) stop step
  ∧ 0 ≤ range_len (i + step) stop step.
Proof.
  unfold range_len. intros [[Hs Hi]|[Hs Hi]].
  - destruct (Z.gtb_spec step 0); [|lia].
    replace (stop - i + step - 1) with (stop - (i + step) + step - 1 + 1 * step)
      by lia.
    rewrite Z.div_add by lia. split; [lia|].
    apply Z.div_pos; lia.
  - destruct (Z.gtb_spec step 0); [lia|].
    destruct (Z.ltb_spec step 0); [|lia].
    replace (i - stop - step - 1)
      with (i + step - stop - step - 1 + 1 * (- step)) by lia.
    rewrite Z.div_add by lia. split; [lia|].
    apply Z.div_pos; lia.
Qed.

Lemma range_cons (i stop step : Z) :
  (step > 0 ∧ i < stop) ∨ (step < 0 ∧ i > stop) →
  range i stop step = i :: range (i + step) stop step.
Proof.
  intros H. destruct (range_len_step _ _ _ H) as [Hlen Hpos].
  unfold range. rewrite Hlen.
  replace (1 + range_len (i + step) stop step)
    with (Z.succ (range_len (i + step) stop step)) by lia.
  rewrite seqZ_cons by lia. csimpl. f_equal; [lia|].
  rewrite Z.pred_succ.
  replace (Z.succ 0) with (1 + 0) by lia.
  rewrite <- fmap_add_seqZ, <- list_fmap_compose.
  apply list_fmap_ext. intros _ k _. simpl. lia.
Qed.

Lemma Count_cond_true (stop step i : Z) :
  (step > 0 ∧ i < stop) ∨ (step < 0 ∧ i > stop) →
  ((step >? 0) && (i <? stop)) || ((step <? 0) && (i >? stop)) = true.
Proof.
  destruct (Z.gtb_spec step 0), (Z.ltb_spec i stop),
    (Z.ltb_spec step 0), (Z.gtb_spec i stop); simpl; lia.
Qed.

Lemma Count_cond_false (stop step i : Z) :
  step * (stop - i) ≤ 0 →
  ((step >? 0) && (i <? stop)) || ((step <? 0) && (i >? stop)) = false.
Proof.
  destruct (Z.gtb_spec step 0), (Z.ltb_spec i stop),
    (Z.ltb_spec step 0), (Z.gtb_spec i stop); simpl; nia.
Qed.

Lemma Count_cases (stop step i : Z) :
  ((step > 0 ∧ i < stop) ∨ (step < 0 ∧ i > stop)) ∨ step * (stop - i) ≤ 0.
Proof.
  destruct (Z.lt_trichotomy step 0) as [?|[?|?]],
    (Z.lt_trichotomy i stop) as [?|[?|?]];
    first [left; lia | right; nia].
Qed.

(** The loop, as long as [i += step] stays within [int]. *)
Lemma Count_loop_range (fuel : nat) (stop step i : Z) (acc : list Z) :
  is_int i → is_int (stop + step) → is_int stop →
  range_len i stop step ≤ Z.of_nat fuel →
  Count_loop fuel stop step i acc = Ok (acc ++ range i stop step).
Proof.
  revert i acc. induction fuel as [|fuel IH]; intros i acc Hi Hss Hstop Hfuel;
    destruct (Count_cases stop step i) as [Hin|Hout]; simpl;
    try (rewrite (Count_cond_false _ _ _ Hout), range_nil by done;
         by rewrite app_nil_r).
  - destruct (range_len_step _ _ _ Hin). lia.
  - rewrite (Count_cond_true _ _ _ Hin).
    destruct (range_len_step _ _ _ Hin) as [Hlen Hpos].
    assert (is_int (i + step)) as Hnext.
    { unfold is_int, int_min, int_max in *. lia. }
    rewrite (wrap_id _ Hnext).
    rewrite IH by (done || lia).
    rewrite (range_cons i) by done.
    by rewrite <- app_assoc.
Qed.

(** X1. Where no intermediate value leaves [int], [Count] returns the
    documented range; the two documented calls are instances. *)
Lemma Count_range (fuel : nat) (start stop step : Z) :
  is_int start → is_int stop → is_int (stop - start) →
  is_int (step * (stop - start)) → is_int (stop + step) →
  range_len start stop step ≤ Z.of_nat fuel →
  Count fuel start stop step = Ok (range start stop step).
Proof.
  intros Hstart Hstop Hd Hp Hss Hfuel. unfold Count.
  rewrite (wrap_id _ Hd), (wrap_id _ Hp).
  destruct (Z.leb_spec (step * (stop - start)) 0).
  - by rewrite range_nil.
  - by rewrite Count_loop_range.
Qed.

Lemma Count_range_witness :
  Count 9 1 10 1 = Ok [1; 2; 3; 4; 5; 6; 7; 8; 9] ∧ Count 0 10 1 1 = Ok [].
Proof.
  split.
  - apply (Count_range 9 1 10 1);
      unfold is_int, int_min, int_max; vm_compute; (done || (split; discriminate)).
  - apply (Count_range 0 10 1 1);
      unfold is_int, int_min, int_max; vm_compute; (done || (split; discriminate)).
Defined.

(** C6, at [Count(0, 2, 1<<62)].  All three arguments are [int]s and
    [0] lies before [stop = 2], so the documented result is [[0]]; but
    [step * (stop - start)] is [2^63], which wraps to [-2^63], and the
    guard of line 14 returns the empty slice. *)
Theorem Count_guard_overflow (fuel : nat) :
  is_int 0 ∧ is_int 2 ∧ is_int (2 ^ 62)
  ∧ ¬ (2 ^ 62 * (2 - 0) ≤ 0)
  ∧ range 0 2 (2 ^ 62) = [0]
  ∧ Count fuel 0 2 (2 ^ 62) = Ok [].
Proof.
  assert (∀ z, int_min ≤ z → z ≤ int_max → is_int z) as Hint by done.
  split; [by apply Hint|]. split; [by apply Hint|]. split; [by apply Hint|].
  split; [lia|]. split; [reflexivity|].
  unfold Count.
  change (wrap (2 ^ 62 * wrap (2 - 0)) <=? 0) with true. done.
Qed.


(** ** Runs of a generator *)

Section Trace.
Context {S T : Type}.
Implicit Types (sub : T → bool * T) (top : S → bool * S) (h : T → S).

Lemma trace_starts top s l s' : trace top s l s' → ∃ l', l = s :: l'.
Proof. destruct 1; eauto. Qed.

(** A run of the levels below lifts to the level above while those
    levels move on their own... *)
Lemma trace_lift_last sub top h t0 l t1 s' :
  trace sub t0 l t1 →
  (∀ t t', t ∈ l → sub t = (true, t') → top (h t) = (true, h t')) →
  (∀ t, t ∈ l → sub t = (false, t1) → top (h t) = (false, s')) →
  trace top (h t0) (h <$> l) s'.
Proof.
  induction 1 as [t t1 Ht|t t' l t1 Ht _ IH]; intros Hmove Hwrap; csimpl.
  - apply trace_last. apply Hwrap; [by constructor|done].
  - eapply trace_cons.
    + apply Hmove; [by constructor|done].
    + apply IH.
      * intros u u' Hu. apply Hmove. by constructor.
      * intros u Hu. apply Hwrap. by constructor.
Qed.

(** ... and goes on with the run of the level above when they wrap
    around. *)
Lemma trace_lift_more sub top h t0 l t1 s2 l2 s' :
  trace sub t0 l t1 →
  (∀ t t', t ∈ l → sub t = (true, t') → top (h t) = (true, h t')) →
  (∀ t, t ∈ l → sub t = (false, t1) → top (h t) = (true, s2)) →
  trace top s2 l2 s' →
  trace top (h t0) ((h <$> l) ++ l2) s'.
Proof.
  induction 1 as [t t1 Ht|t t' l t1 Ht _ IH]; intros Hmove Hwrap Hrest;
    csimpl.
  - eapply trace_cons; [|done]. apply Hwrap; [by constructor|done].
  - eapply trace_cons.
    + apply Hmove; [by constructor|done].
    + apply IH; [| |done].
      * intros u u' Hu. apply Hmove. by constructor.
      * intros u Hu. apply Hwrap. by constructor.
Qed.

End Trace.


(** ** Product *)

Lemma incr_length (lens ds : list Z) b ds' :
  incr lens ds = (b, ds') → length ds' = length ds.
Proof.
  revert ds b ds'. induction lens as [|L lens IH]; intros [|d ds] b ds' H;
    simpl in H; try (by inversion H).
  destruct (incr lens ds) as [b0 ds0] eqn:E. apply IH in E.
  destruct b0; [|destruct (d + 1 =? L)]; inversion H; simpl; congruence.
Qed.

(** The odometer seen from its last wheel, as the scan meets it. *)
Lemma incr_snoc (lens ds : list Z) (L d : Z) :
  length lens = length ds →
  incr (lens ++ [L]) (ds ++ [d])
  = if d + 1 =? L then (let '(b, ds') := incr lens ds in (b, ds' ++ [0]))
    else (true, ds ++ [d + 1]).
Proof.
  revert ds. induction lens as [|L0 lens IH]; intros [|d0 ds] Hlen;
    try done; simpl in *.
  rewrite IH by lia. destruct (d + 1 =? L); [|done].
  destruct (incr lens ds) as [[] ds']; [done|].
  by destruct (d0 + 1 =? L0).
Qed.

Lemma select_snoc (pp : list (list Z)) (pool : list Z) (ds : list Z) (d : Z) :
  length pp = length ds →
  select (pp ++ [pool]) (ds ++ [d])
  = select pp ds ++ [nth (Z.to_nat d) pool 0].
Proof. intros H. unfold select. by rewrite zip_with_app. Qed.

Lemma select_length (pools : list (list Z)) (ds : list Z) :
  length pools = length ds → length (select pools ds) = length ds.
Proof. intros H. unfold select. rewrite length_zip_with. lia. Qed.

Lemma Product_scan_S (pools : list (list Z)) (k : nat)
    (indices result : list Z) :
  Product_scan pools (S k) indices result
  = (let i := Z.of_nat k in
     pool ← get pools i;
     v ← get indices i;
     indices ← set indices i (v + 1);
     v ← get indices i;
     if v =? len pool then
       indices ← set indices i 0;
       p0 ← get pool 0;
       result ← set result i p0;
       Product_scan pools k indices result
     else
       pv ← get pool v;
       result ← set result i pv;
       Ok (i, indices, result)).
Proof. reflexivity. Qed.

(** The scan of lines 305-318 is one tick of the odometer; it keeps
    [result] the tuple at [indices], and leaves with [i < 0] exactly
    when the odometer wrapped around. *)
Lemma Product_scan_incr (pp ps : list (list Z)) (ds zs rs : list Z) b ds' :
  in_pools pp ds →
  incr (len <$> pp) ds = (b, ds') →
  ∃ i, Product_scan (pp ++ ps) (length pp) (ds ++ zs) (select pp ds ++ rs)
       = Ok (i, ds' ++ zs, select pp ds' ++ rs)
       ∧ (i <? 0) = negb b.
Proof.
  revert ps ds zs rs b ds'.
  induction pp as [|pool pp IH] using rev_ind; intros ps ds zs rs b ds' Hin Hincr.
  - apply Forall2_nil_inv_r in Hin as ->. simpl in Hincr.
    inversion Hincr; subst. exists (-1). done.
  - apply Forall2_app_inv_r in Hin as (ds0 & dl & Hin & Hd & ->).
    apply Forall2_cons_inv_r in Hd as (d & dl' & Hd & Hnil & ->).
    apply Forall2_nil_inv_r in Hnil as ->.
    pose proof (Forall2_length _ _ _ Hin) as Hlen.
    rewrite fmap_app in Hincr. simpl in Hincr.
    rewrite incr_snoc in Hincr by (by rewrite length_fmap).
    rewrite select_snoc by done.
    rewrite length_app, Nat.add_1_r, Product_scan_S. cbv zeta.
    rewrite <- !(app_assoc _ [_]). simpl app.
    rewrite (get_middle pp) by done. simpl.
    rewrite (get_middle ds0) by (unfold len; lia). simpl.
    rewrite (set_middle ds0) by (unfold len; lia). simpl.
    rewrite (get_middle ds0) by (unfold len; lia). simpl.
    assert (Hrl : len (select pp ds0) = Z.of_nat (length pp)).
    { unfold len. rewrite select_length; lia. }
    destruct (Z.eqb_spec (d + 1) (len pool)) as [Heq|Hne].
    + rewrite (set_middle ds0) by (unfold len; lia). simpl.
      destruct pool as [|p0 pool]; [unfold len in Hd; simpl in Hd; lia|].
      simpl. rewrite (set_middle (select pp ds0)) by done. simpl.
      destruct (incr (len <$> pp) ds0) as [b0 ds0'] eqn:E.
      inversion Hincr; subst b0 ds'.
      destruct (IH ((p0 :: pool) :: ps) ds0 (0 :: zs) (p0 :: rs) b ds0' Hin E)
        as (i & Hscan & Hi).
      exists i. split; [|done].
      rewrite Hscan, select_snoc by (apply incr_length in E; lia).
      by rewrite <- !(app_assoc _ [_]).
    + inversion Hincr; subst b ds'.
      assert (0 ≤ d + 1 < len pool) as Hd1 by lia.
      destruct (lookup_lt_is_Some_2 pool (Z.to_nat (d + 1))) as [pv Hpv];
        [unfold len in Hd1; lia|].
      rewrite (get_Ok _ _ _ (proj1 Hd1) Hpv). simpl.
      rewrite (set_middle (select pp ds0)) by done. simpl.
      exists (Z.of_nat (length pp)). split.
      * rewrite <- !(app_assoc _ [_]). simpl app.
        rewrite select_snoc by done.
        rewrite (nth_lookup_Some _ _ _ _ Hpv).
        by rewrite <- !(app_assoc _ [_]).
      * simpl. apply Z.ltb_ge. lia.
Qed.

Lemma Product_scan_tick (pools : list (list Z)) (ds : list Z) b ds' :
  in_pools pools ds →
  incr (len <$> pools) ds = (b, ds') →
  ∃ i, Product_scan pools (Z.to_nat (len pools - 1 + 1)) ds (select pools ds)
       = Ok (i, ds', select pools ds')
       ∧ (i <? 0) = negb b.
Proof.
  intros Hin Hincr.
  destruct (Product_scan_incr pools [] ds [] [] b ds' Hin Hincr)
    as (i & Hscan & Hi).
  rewrite !app_nil_r in Hscan. exists i. split; [|done].
  rewrite <- Hscan. f_equal. unfold len. lia.
Qed.

(** The main loop follows a run of the odometer.  [results[0]] ends as
    the tuple of the state the run wraps around to. *)
Lemma Product_loop_trace (pools : list (list Z)) (ds : list Z)
    (l : list (list Z)) (ds' : list Z) :
  trace (incr (len <$> pools)) ds l ds' →
  ∀ (fuel : nat) (appended : list (list Z)),
    Forall (in_pools pools) l → (length l ≤ fuel)%nat →
    Product_loop fuel pools (len pools) ds (select pools ds) appended
    = Ok (select pools ds' :: appended ++ (select pools <$> tail l)).
Proof.
  induction 1 as [s s' Hs|s s1 l s' Hs Hl IH]; intros fuel appended Hin Hfuel;
    (destruct fuel as [|fuel]; [simpl in Hfuel; lia|]);
    apply Forall_cons in Hin as [Hin Hrest];
    destruct (Product_scan_tick _ _ _ _ Hin Hs) as (i & Hscan & Hi);
    simpl; rewrite Hscan; simpl; rewrite Hi; simpl.
  - by rewrite app_nil_r.
  - rewrite IH by (done || simpl in Hfuel; lia).
    destruct (trace_starts _ _ _ _ Hl) as [l' ->]. simpl.
    by rewrite <- app_assoc.
Qed.

Lemma select_cons (pool : list Z) (pools : list (list Z)) (d : Z)
    (l : list (list Z)) :
  select (pool :: pools) <$> (cons d <$> l)
  = cons (nth (Z.to_nat d) pool 0) <$> (select pools <$> l).
Proof. rewrite <- !list_fmap_compose. by apply list_fmap_ext. Qed.

(** The run of the wheel of [pool] from position [len pre] on, given the
    run [l'] of the wheels after it. *)
Lemma incr_trace_wheel (pools' : list (list Z)) (zs : list Z)
    (l' : list (list Z)) (pool : list Z) :
  trace (incr (len <$> pools')) zs l' zs →
  Forall (in_pools pools') l' →
  ∀ post pre x, pool = pre ++ x :: post →
    ∃ l, trace (incr (len <$> pool :: pools')) (len pre :: zs) l (0 :: zs)
         ∧ select (pool :: pools') <$> l
           = (y ← x :: post; cons y <$> (select pools' <$> l'))
         ∧ Forall (in_pools (pool :: pools')) l.
Proof.
  intros Hsub Hin.
  assert (Hmove : ∀ d t t', t ∈ l' → incr (len <$> pools') t = (true, t') →
            incr (len <$> pool :: pools') (d :: t) = (true, d :: t')).
  { intros d t t' _ Ht. csimpl. by rewrite Ht. }
  assert (Hvalid : ∀ d, 0 ≤ d < len pool →
            Forall (in_pools (pool :: pools')) (cons d <$> l')).
  { intros d Hd. rewrite Forall_fmap. eapply Forall_impl; [done|].
    intros t Ht. by constructor. }
  induction post as [|y post IH]; intros pre x ->.
  - exists (cons (len pre) <$> l'). split; [|split].
    + apply (trace_lift_last _ _ (cons (len pre)) _ _ _ _ Hsub).
      * apply Hmove.
      * intros t _ Ht. csimpl. rewrite Ht.
        rewrite len_app, len_cons.
        by destruct (Z.eqb_spec (len pre + 1) (len pre + (1 + len (@nil Z)))).
    + rewrite select_cons. csimpl. rewrite app_nil_r.
      unfold len. rewrite Nat2Z.id. by rewrite nth_middle.
    + apply Hvalid. rewrite len_app, len_cons. pose proof (len_nonneg pre).
      pose proof (len_nonneg (@nil Z)). lia.
  - destruct (IH (pre ++ [x]) y) as (l2 & Hl2 & Hsel & Hin2).
    { by rewrite <- app_assoc. }
    exists ((cons (len pre) <$> l') ++ l2). split; [|split].
    + apply (trace_lift_more _ _ (cons (len pre)) _ _ _ (len (pre ++ [x]) :: zs)
               _ _ Hsub).
      * apply Hmove.
      * intros t _ Ht. csimpl. rewrite Ht.
        rewrite !len_app, !len_cons. pose proof (len_nonneg post).
        destruct (Z.eqb_spec (len pre + 1)
                    (len pre + (1 + (1 + len post)))); [lia|].
        do 2 f_equal; unfold len; simpl; lia.
      * done.
    + rewrite fmap_app, select_cons, Hsel. csimpl.
      unfold len. rewrite Nat2Z.id. by rewrite nth_middle.
    + apply Forall_app. split; [|done].
      apply Hvalid. rewrite len_app, !len_cons. pose proof (len_nonneg pre).
      pose proof (len_nonneg post). lia.
Qed.

(** From all wheels at 0 the odometer runs through the position tuples
    of the cartesian product, in order, and wraps around to all wheels
    at 0. *)
Lemma incr_trace (pools : list (list Z)) :
  Forall (λ pool, pool ≠ []) pools →
  ∃ l, trace (incr (len <$> pools)) (replicate (length pools) 0) l
         (replicate (length pools) 0)
       ∧ select pools <$> l = cart pools
       ∧ Forall (in_pools pools) l.
Proof.
  induction 1 as [|pool pools Hpool _ (l' & Htrace & Hsel & Hin)].
  - exists [[]]. split; [by apply trace_last|].
    split; [done|]. repeat constructor.
  - destruct pool as [|x post]; [done|].
    destruct (incr_trace_wheel pools _ l' (x :: post) Htrace Hin post [] x)
      as (l & Hl & Hsel' & Hin'); [done|].
    exists l. split; [done|]. split; [|done].
    rewrite Hsel', Hsel. done.
Qed.


(** ** The cartesian product as a list *)

Section Blocks.
#[local] Open Scope nat_scope.
Context {A B : Type}.
Implicit Types (f : A → list B) (l : list A).

Lemma length_bind_uniform f l m :
  (∀ x, x ∈ l → length (f x) = m) → length (l ≫= f) = length l * m.
Proof.
  induction l as [|x l IH]; intros Hf; [done|].
  rewrite bind_cons, length_app, IH, Hf; [simpl; lia|by constructor|].
  intros y Hy. apply Hf. by constructor.
Qed.

(** With blocks of one size [m], entry [k] is entry [k mod m] of block
    [k / m]. *)
Lemma lookup_bind_uniform f l m k :
  m ≠ 0 → (∀ x, x ∈ l → length (f x) = m) →
  (l ≫= f) !! k = l !! (k / m) ≫= λ x, f x !! (k mod m).
Proof.
  intros Hm. revert k. induction l as [|x l IH]; intros k Hf; [done|].
  rewrite bind_cons. destruct (decide (k < m)) as [Hk|Hk].
  - rewrite lookup_app_l by (rewrite Hf; [done|by constructor]).
    rewrite Nat.div_small, Nat.mod_small by done. done.
  - rewrite lookup_app_r by (rewrite Hf; [lia|by constructor]).
    rewrite Hf by by constructor.
    rewrite IH by (intros y Hy; apply Hf; by constructor).
    assert (k / m = S ((k - m) / m)) as ->.
    { replace k with ((k - m) + 1 * m) at 1 by lia.
      rewrite Nat.div_add by done. lia. }
    assert (k mod m = (k - m) mod m) as ->; [|done].
    replace k with ((k - m) + 1 * m) at 1 by lia.
    by rewrite Nat.Div0.mod_add.
Qed.

Lemma bind_nil_all f l : (∀ x, f x = []) → l ≫= f = [].
Proof.
  intros Hf. induction l as [|x l IH]; [done|].
  by rewrite bind_cons, Hf, IH.
Qed.

End Blocks.

Section Cart.
#[local] Open Scope nat_scope.
Context {A : Type}.
Implicit Types (pool t : list A) (pools : list (list A)).

Lemma cart_cons pool pools :
  cart (pool :: pools) = x ← pool; cons x <$> cart pools.
Proof. reflexivity. Qed.

Lemma cart_length pools :
  length (cart pools) = prod_list (length <$> pools).
Proof.
  induction pools as [|pool pools IH]; [done|].
  rewrite cart_cons, (length_bind_uniform _ _ (length (cart pools))).
  - csimpl. by rewrite IH.
  - intros x _. by rewrite length_fmap.
Qed.

Lemma cart_elem_of pools t :
  t ∈ cart pools ↔ Forall2 (λ x pool, x ∈ pool) t pools.
Proof.
  revert t. induction pools as [|pool pools IH]; intros t.
  - simpl. rewrite list_elem_of_singleton. split.
    + intros ->. constructor.
    + by intros ->%Forall2_nil_inv_r.
  - rewrite cart_cons, list_elem_of_bind. split.
    + intros (x & Ht & Hx). apply list_elem_of_fmap in Ht as (t' & -> & Ht').
      constructor; [done|]. by apply IH.
    + intros (x & t' & Hx & Ht' & ->)%Forall2_cons_inv_r.
      exists x. split; [|done]. apply list_elem_of_fmap.
      exists t'. split; [done|]. by apply IH.
Qed.

Lemma cart_empty_pool pools : [] ∈ pools → cart pools = [].
Proof.
  induction pools as [|pool pools IH]; intros Hin.
  - by apply elem_of_nil in Hin.
  - rewrite cart_cons. apply elem_of_cons in Hin as [<-|Hin]; [done|].
    apply bind_nil_all. intros x. by rewrite IH.
Qed.

(** Entry [k] of the product is read off the odometer after [k]
    ticks. *)
Lemma cart_lookup (d : A) pools k :
  k < prod_list (length <$> pools) →
  cart pools !! k = Some (pick d pools (odometer (length <$> pools) k)).
Proof.
  revert k. induction pools as [|pool pools IH]; intros k Hk.
  - simpl in *. by replace k with 0 by lia.
  - csimpl in Hk. rewrite cart_cons.
    set (M := prod_list (length <$> pools)) in *.
    assert (M ≠ 0) by (intros HM; rewrite HM in Hk; lia).
    rewrite (lookup_bind_uniform _ _ M) by
      (done || (intros; by rewrite length_fmap, cart_length)).
    assert (k / M < length pool) as Hq.
    { apply Nat.Div0.div_lt_upper_bound. lia. }
    destruct (nth_lookup_or_length pool (k / M) d) as [Hx|]; [|lia].
    rewrite Hx. csimpl. rewrite list_lookup_fmap, IH.
    + done.
    + by apply Nat.mod_upper_bound.
Qed.

End Cart.


Lemma Product_first_spec (pools : list (list Z)) :
  match Product_first pools with
  | Some result =>
      Forall (λ pool, pool ≠ []) pools
      ∧ result = select pools (replicate (length pools) 0)
  | None => [] ∈ pools
  end.
Proof.
  induction pools as [|pool pools IH]; simpl.
  - by split.
  - destruct pool as [|x pool]; [by constructor|].
    destruct (Product_first pools) as [result|]; simpl.
    + destruct IH as [Hne ->]. split; [|done]. by constructor.
    + by constructor.
Qed.

(** C3. [Product] returns the tuples that take one element of each
    pool, and nothing else: as many as the product of the pool lengths
    (none when a pool is empty), every such tuple, and tuple number [k]
    at the positions an odometer over the pool lengths shows after [k]
    ticks, the last wheel turning fastest.  One round of the main loop
    per tuple is enough.  (It also holds without any pool.) *)
Theorem Product_spec (fuel : nat) (pools : list (list Z)) :
  (prod_list (length <$> pools) ≤ fuel)%nat →
  Product fuel pools = Ok (cart pools)
  ∧ length (cart pools) = prod_list (length <$> pools)
  ∧ ([] ∈ pools → cart pools = [])
  ∧ (∀ t, t ∈ cart pools ↔ Forall2 (λ x pool, x ∈ pool) t pools)
  ∧ (∀ k, (k < prod_list (length <$> pools))%nat →
       cart pools !! k
       = Some (pick 0 pools (odometer (length <$> pools) k))).
Proof.
  intros Hfuel. split; [|split; [|split; [|split]]].
  - unfold Product, make.
    destruct (Z.ltb_spec (len pools) 0) as [Hneg|_];
      [pose proof (len_nonneg pools); lia|].
    replace (Z.to_nat (len pools)) with (length pools) by (unfold len; lia).
    simpl.
    pose proof (Product_first_spec pools) as Hfirst.
    destruct (Product_first pools) as [result|].
    + destruct Hfirst as [Hne ->].
      destruct (incr_trace pools Hne) as (l & Htrace & Hsel & Hin).
      rewrite (Product_loop_trace _ _ _ _ Htrace); [|done|].
      * destruct (trace_starts _ _ _ _ Htrace) as [l' ->].
        by rewrite <- Hsel.
      * rewrite <- (length_fmap (select pools)), Hsel, cart_length. done.
    + by rewrite cart_empty_pool.
  - apply cart_length.
  - apply cart_empty_pool.
  - intros t. apply cart_elem_of.
  - intros k. apply cart_lookup.
Qed.

Lemma Product_spec_witness :
  (prod_list (length <$> [[1; 2]; [3; 4]]%Z) ≤ 4)%nat
  ∧ Product 4 [[1; 2]; [3; 4]] = Ok [[1; 3]; [1; 4]; [2; 3]; [2; 4]].
Proof.
  assert (H : (prod_list (length <$> [[1; 2]; [3; 4]]%Z) ≤ 4)%nat)
    by (simpl; lia).
  split; [exact H|]. apply (Product_spec 4 [[1; 2]; [3; 4]] H).
Defined.


(** ** Combinations *)

Lemma gather_imageZ (pool idx : list Z) :
  in_pool pool idx → gather pool idx = Ok (imageZ pool idx).
Proof.
  intros Hin. unfold gather, imageZ. apply fill_from_Ok.
  eapply Forall_impl; [done|]. intros i Hi. simpl in Hi.
  apply get_Ok; [lia|].
  destruct (nth_lookup_or_length pool (Z.to_nat i) 0); [done|].
  unfold len in Hi. lia.
Qed.

Lemma seqZ_S (m : Z) (k : nat) :
  seqZ m (Z.of_nat (S k)) = m :: seqZ (m + 1) (Z.of_nat k).
Proof.
  rewrite seqZ_cons by lia. f_equal. f_equal; lia.
Qed.

Lemma seqZ_snoc (m : Z) (k : nat) :
  seqZ m (Z.of_nat (S k)) = seqZ m (Z.of_nat k) ++ [m + Z.of_nat k].
Proof.
  replace (Z.of_nat (S k)) with (Z.of_nat k + 1) by lia.
  by rewrite seqZ_app by lia.
Qed.

Lemma len_seqZ (m : Z) (k : nat) : len (seqZ m (Z.of_nat k)) = Z.of_nat k.
Proof. unfold len. rewrite length_seqZ. lia. Qed.

Lemma cnext_length (n : Z) (idx : list Z) b idx' :
  cnext n idx = (b, idx') → length idx' = length idx.
Proof.
  revert b idx'. induction idx as [|x idx IH]; intros b idx' H; simpl in H.
  - by inversion H.
  - destruct (cnext n idx) as [b0 rest'] eqn:E.
    specialize (IH _ _ eq_refl).
    destruct b0; [|destruct (x =? n - len (x :: rest'))]; inversion H;
      simpl; try congruence.
    unfold len. rewrite length_seqZ. simpl. lia.
Qed.

(** The sequence of the [k] largest positions cannot move. *)
Lemma cnext_top (n : Z) (k : nat) :
  cnext n (seqZ (n - Z.of_nat k) (Z.of_nat k))
  = (false, seqZ (n - Z.of_nat k) (Z.of_nat k)).
Proof.
  induction k as [|k IH]; [done|].
  rewrite seqZ_S.
  replace (n - Z.of_nat (S k) + 1) with (n - Z.of_nat k) by lia.
  simpl. rewrite IH, len_cons, len_seqZ.
  destruct (Z.eqb_spec (n - Z.of_nat (S k)) (n - (1 + Z.of_nat k))); [done|lia].
Qed.

Lemma cnext_app (n : Z) (pre suf suf' : list Z) :
  cnext n suf = (true, suf') → cnext n (pre ++ suf) = (true, pre ++ suf').
Proof.
  intros H. induction pre as [|x pre IH]; [done|]. simpl. by rewrite IH.
Qed.

(** Moving the rightmost position that is not at its largest value. *)
Lemma cnext_move (n : Z) (pre : list Z) (x : Z) (k : nat) :
  x ≠ n - Z.of_nat (S k) →
  cnext n (pre ++ x :: seqZ (n - Z.of_nat k) (Z.of_nat k))
  = (true, pre ++ seqZ (x + 1) (Z.of_nat (S k))).
Proof.
  intros Hx. apply cnext_app. simpl. rewrite cnext_top, len_cons, len_seqZ.
  destruct (Z.eqb_spec x (n - (1 + Z.of_nat k))); [lia|].
  do 2 f_equal. lia.
Qed.

Lemma Combinations_scan_S (n r : Z) (k : nat) (indices : list Z) :
  Combinations_scan n r (S k) indices
  = (let i := Z.of_nat k in
     v ← get indices i;
     if v =? i + n - r then Combinations_scan n r k indices else Ok i).
Proof. reflexivity. Qed.

(** The scan of line 431 stops at the rightmost position that is not at
    its largest value, or runs off the slice when there is none. *)
Lemma Combinations_scan_spec (n : Z) (pre : list Z) (k : nat) :
  ∃ i, Combinations_scan n (len pre + Z.of_nat k) (length pre)
         (pre ++ seqZ (n - Z.of_nat k) (Z.of_nat k)) = Ok i
       ∧ ((i = -1
           ∧ pre ++ seqZ (n - Z.of_nat k) (Z.of_nat k)
             = seqZ (n - (len pre + Z.of_nat k)) (len pre + Z.of_nat k))
          ∨ ∃ (p : list Z) (x : Z) (j : nat),
              i = len p
              ∧ pre ++ seqZ (n - Z.of_nat k) (Z.of_nat k)
                = p ++ x :: seqZ (n - Z.of_nat j) (Z.of_nat j)
              ∧ x ≠ n - Z.of_nat (S j)).
Proof.
  revert k. induction pre as [|x pre IH] using rev_ind; intros k.
  - exists (-1). split; [done|]. left. split; [done|]. simpl.
    unfold len. simpl. by rewrite Z.add_0_l.
  - rewrite length_app, Nat.add_1_r, Combinations_scan_S. cbv zeta.
    rewrite <- app_assoc. simpl app.
    rewrite get_middle by done. simpl.
    rewrite len_app, len_cons. change (len (@nil Z)) with 0.
    destruct (Z.eqb_spec x (Z.of_nat (length pre) + n
                            - (len pre + (1 + 0) + Z.of_nat k))) as [Hx|Hx].
    + destruct (IH (S k)) as (i & Hscan & Hi).
      assert (x :: seqZ (n - Z.of_nat k) (Z.of_nat k)
              = seqZ (n - Z.of_nat (S k)) (Z.of_nat (S k))) as Hsuf.
      { rewrite seqZ_S. unfold len in Hx. f_equal; [lia|]. f_equal. lia. }
      rewrite Hsuf.
      replace (len pre + (1 + 0) + Z.of_nat k)
        with (len pre + Z.of_nat (S k)) by lia.
      exists i. done.
    + exists (len pre). split; [done|]. right.
      exists pre, x, k.
      split; [done|]. split; [done|]. unfold len in Hx. lia.
Qed.

(** Lines 439-441 write consecutive values after position [len a0]. *)
Lemma Combinations_fill (rest a0 : list Z) (v : Z) :
  for_up (length rest) (len a0 + 1)
    (λ j indices, v ← get indices (j - 1); set indices j (v + 1))
    (a0 ++ v :: rest)
  = Ok (a0 ++ seqZ v (Z.of_nat (S (length rest)))).
Proof.
  revert a0 v. induction rest as [|y rest IH]; intros a0 v; [done|].
  cbn [length for_up].
  replace (len a0 + 1 - 1) with (len a0) by lia.
  rewrite get_middle by done. cbn [bind mbind exec_bind].
  replace (a0 ++ v :: y :: rest) with ((a0 ++ [v]) ++ y :: rest)
    by (by rewrite <- app_assoc).
  rewrite set_middle by (rewrite len_app, len_cons; done).
  cbn [bind mbind exec_bind].
  replace (len a0 + 1 + 1) with (len (a0 ++ [v]) + 1)
    by (rewrite len_app, len_cons; done).
  rewrite IH, <- app_assoc. simpl app. by rewrite <- seqZ_S.
Qed.

(** One round of the main loop is one step of [cnext]. *)
Lemma Combinations_loop_S (fuel : nat) (pool : list Z) (n : Z)
    (idx : list Z) (results : list (list Z)) b idx' :
  cnext n idx = (b, idx') →
  Combinations_loop (S fuel) pool n (len idx) idx results
  = if b then
      result ← gather pool idx';
      Combinations_loop fuel pool n (len idx) idx' (results ++ [result])
    else Ok results.
Proof.
  intros Hnext. cbn [Combinations_loop].
  destruct (Combinations_scan_spec n idx 0) as (i & Hscan & Hi).
  simpl in Hscan. rewrite Z.add_0_r, app_nil_r in Hscan.
  replace (Z.to_nat (len idx - 1 + 1)) with (length idx) by (unfold len; lia).
  rewrite Hscan. cbn [bind mbind exec_bind].
  destruct Hi as [[-> Htop]|(p & x & j & -> & Hidx & Hx)].
  - simpl in Htop. rewrite Z.add_0_r, app_nil_r in Htop.
    assert (len idx = Z.of_nat (length idx)) as Hlen by done.
    rewrite Hlen in Htop. rewrite Htop, cnext_top in Hnext.
    by inversion Hnext.
  - simpl in Hidx. rewrite app_nil_r in Hidx. subst idx.
    rewrite cnext_move in Hnext by done. inversion Hnext; subst b idx'.
    pose proof (len_nonneg p).
    destruct (Z.ltb_spec (len p) 0); [lia|].
    rewrite get_middle by done. cbn [bind mbind exec_bind].
    rewrite set_middle by done. cbn [bind mbind exec_bind].
    rewrite len_app, len_cons, len_seqZ.
    replace (Z.to_nat (len p + (1 + Z.of_nat j) - (len p + 1)))
      with (length (seqZ (n - Z.of_nat j) (Z.of_nat j)))
      by (rewrite length_seqZ; lia).
    rewrite Combinations_fill. cbn [bind mbind exec_bind].
    rewrite length_seqZ, Nat2Z.id. done.
Qed.

(** The main loop follows a run of [cnext]. *)
Lemma Combinations_loop_trace (pool : list Z) (n : Z) (idx : list Z)
    (l : list (list Z)) (idx' : list Z) :
  trace (cnext n) idx l idx' →
  ∀ (fuel : nat) (results : list (list Z)),
    Forall (in_pool pool) l → (length l ≤ fuel)%nat →
    Combinations_loop fuel pool n (len idx) idx results
    = Ok (results ++ (imageZ pool <$> tail l)).
Proof.
  induction 1 as [s s' Hs|s s1 l s' Hs Hl IH]; intros fuel results Hin Hfuel;
    (destruct fuel as [|fuel]; [simpl in Hfuel; lia|]);
    rewrite (Combinations_loop_S _ _ _ _ _ _ _ Hs).
  - by rewrite app_nil_r.
  - apply Forall_cons in Hin as [_ Hin].
    destruct (trace_starts _ _ _ _ Hl) as [l' ->].
    rewrite gather_imageZ by by apply Forall_cons in Hin as [? _].
    cbn [bind mbind exec_bind].
    assert (len s = len s1) as ->.
    { unfold len. by rewrite (cnext_length _ _ _ _ Hs). }
    rewrite IH; [|done|simpl in Hfuel |- *; lia].
    simpl. by rewrite <- app_assoc.
Qed.

Lemma sublists_short {A} (r : nat) (l : list A) :
  (length l < r)%nat → sublists r l = [].
Proof.
  revert r. induction l as [|x l IH]; intros [|r] Hr; simpl in *; try lia.
  - done.
  - by rewrite !IH by lia.
Qed.

(** From the [r] smallest of the positions [lo, ..., n - 1], [cnext]
    runs through their subsequences of length [r] in order, and stops at
    the [r] largest. *)
Lemma cnext_trace (n : Z) (m : nat) :
  ∀ (r : nat) (lo : Z),
    n - lo = Z.of_nat m → (r ≤ m)%nat →
    trace (cnext n) (seqZ lo (Z.of_nat r))
      (sublists r (seqZ lo (Z.of_nat m)))
      (seqZ (n - Z.of_nat r) (Z.of_nat r)).
Proof.
  induction m as [|m IH]; intros r lo Hlo Hr.
  - replace r with 0%nat by lia. by apply trace_last.
  - destruct r as [|r].
    + rewrite seqZ_S. by apply trace_last.
    + rewrite (seqZ_S lo m), (seqZ_S lo r). cbn [sublists].
      assert (Hsub := IH r (lo + 1) ltac:(lia) ltac:(lia)).
      assert (Hmove : ∀ t t', t ∈ sublists r (seqZ (lo + 1) (Z.of_nat m)) →
                cnext n t = (true, t') →
                cnext n (lo :: t) = (true, lo :: t')).
      { intros t t' _ Ht. simpl. by rewrite Ht. }
      destruct (decide (r = m)) as [->|Hrm].
      * rewrite (sublists_short (S m)), app_nil_r by (rewrite length_seqZ; lia).
        replace (seqZ (n - Z.of_nat (S m)) (Z.of_nat (S m)))
          with (lo :: seqZ (n - Z.of_nat m) (Z.of_nat m))
          by (rewrite seqZ_S; f_equal; [lia|f_equal; lia]).
        apply (trace_lift_last _ _ (cons lo) _ _ _ _ Hsub Hmove).
        intros t _ Ht. simpl. rewrite Ht, len_cons, len_seqZ.
        destruct (Z.eqb_spec lo (n - (1 + Z.of_nat m))); [done|lia].
      * apply (trace_lift_more _ _ (cons lo) _ _ _
                 (seqZ (lo + 1) (Z.of_nat (S r))) _ _ Hsub Hmove).
        -- intros t _ Ht. simpl. rewrite Ht, len_cons, len_seqZ.
           destruct (Z.eqb_spec lo (n - (1 + Z.of_nat r))); [lia|].
           do 2 f_equal; lia.
        -- apply IH; lia.
Qed.


(** ** Subsequences of a given length *)

Section Counting.
#[local] Open Scope nat_scope.

Lemma choose_0_r n : choose n 0 = 1.
Proof. by destruct n. Qed.

Lemma choose_above n r : n < r → choose n r = 0.
Proof.
  revert r. induction n as [|n IH]; intros [|r] Hr; simpl; try lia.
  rewrite !IH; lia.
Qed.

Lemma choose_fact n r :
  r ≤ n → choose n r * (fact r * fact (n - r)) = fact n.
Proof.
  revert r. induction n as [|n IH]; intros [|r] Hr; try (simpl; lia).
  cbn [choose]. destruct (decide (r = n)) as [->|Hne].
  - rewrite (choose_above n (S n)) by lia. specialize (IH n (le_n _)).
    rewrite Nat.sub_diag in *. cbn [fact] in *. nia.
  - pose proof (IH r ltac:(lia)) as H1.
    pose proof (IH (S r) ltac:(lia)) as H2.
    replace (S n - S r) with (S (n - S r)) by lia.
    replace (n - r) with (S (n - S r)) in H1 by lia.
    cbn [fact] in *. nia.
Qed.

Lemma choose_div n r :
  r ≤ n → choose n r = fact n / (fact r * fact (n - r)).
Proof.
  intros Hr. rewrite <- (choose_fact n r Hr), Nat.div_mul; [done|].
  pose proof (fact_neq_0 r). pose proof (fact_neq_0 (n - r)). lia.
Qed.

End Counting.

Section Sublists.
#[local] Open Scope nat_scope.
Context {A : Type}.
Implicit Types (l p : list A).

Lemma sublists_0 l : sublists 0 l = [[]].
Proof. by destruct l. Qed.

Lemma sublists_length r l : length (sublists r l) = choose (length l) r.
Proof.
  revert r. induction l as [|x l IH]; intros [|r]; simpl; try done.
  by rewrite length_app, length_fmap, !IH.
Qed.

Lemma sublists_elem_length r l p : p ∈ sublists r l → length p = r.
Proof.
  revert r p. induction l as [|x l IH]; intros [|r] p; simpl.
  - by intros ->%list_elem_of_singleton.
  - by intros ?%elem_of_nil.
  - by intros ->%list_elem_of_singleton.
  - rewrite elem_of_app, list_elem_of_fmap.
    intros [(p' & -> & Hp')|Hp]; simpl; eauto.
Qed.

Lemma sublists_elem_subseteq r l p : p ∈ sublists r l → p ⊆ l.
Proof.
  revert r p. induction l as [|x l IH]; intros [|r] p; simpl.
  - by intros ->%list_elem_of_singleton.
  - by intros ?%elem_of_nil.
  - intros ->%list_elem_of_singleton. apply list_subseteq_nil.
  - rewrite elem_of_app, list_elem_of_fmap.
    intros [(p' & -> & Hp')|Hp] y Hy.
    + apply elem_of_cons in Hy as [->|Hy]; [by constructor|].
      constructor. by eapply IH.
    + constructor. by eapply IH.
Qed.

Lemma sublists_NoDup r l : NoDup l → NoDup (sublists r l).
Proof.
  intros Hl. revert r. induction Hl as [|x l Hx Hl IH]; intros [|r]; simpl;
    try apply NoDup_singleton; try apply NoDup_nil_2.
  apply NoDup_app. split; [|split].
  - apply NoDup_fmap_2; [|done]. by intros ?? [=].
  - intros p (p' & -> & _)%list_elem_of_fmap Hp.
    apply Hx. apply (sublists_elem_subseteq _ _ _ Hp). by constructor.
  - done.
Qed.

End Sublists.

Lemma sublists_fmap {A B} (f : A → B) (r : nat) (l : list A) :
  sublists r (f <$> l) = fmap (M := list) f <$> sublists r l.
Proof.
  revert r. induction l as [|x l IH]; intros [|r]; csimpl; try done.
  rewrite fmap_app, !IH, <- !list_fmap_compose. done.
Qed.

Lemma fmap_nth_seq (pool : list Z) :
  (λ i, nth i pool 0) <$> seq 0 (length pool) = pool.
Proof.
  apply list_eq. intros i. rewrite list_lookup_fmap.
  destruct (nth_lookup_or_length pool i 0) as [Hi|Hi].
  - rewrite lookup_seq_lt by (by apply lookup_lt_Some in Hi). by rewrite Hi.
  - rewrite lookup_seq_ge, lookup_ge_None_2 by done. done.
Qed.

Lemma seqZ_seq (n : nat) : seqZ 0 (Z.of_nat n) = Z.of_nat <$> seq 0 n.
Proof.
  unfold seqZ. rewrite Nat2Z.id. apply list_fmap_ext. intros _ i _. lia.
Qed.

Lemma imageZ_of_nat (pool : list Z) (p : list nat) :
  imageZ pool (Z.of_nat <$> p) = image pool p.
Proof.
  unfold imageZ, image. rewrite <- list_fmap_compose.
  apply list_fmap_ext. intros _ i _. simpl. by rewrite Nat2Z.id.
Qed.

Section Positions.
#[local] Open Scope nat_scope.

(** Over consecutive positions the subsequences are the increasing
    sequences. *)
Lemma sublists_seq_elem_of (m : nat) :
  ∀ (lo r : nat) (p : list nat),
    p ∈ sublists r (seq lo m)
    ↔ length p = r ∧ StronglySorted lt p
      ∧ Forall (λ i, lo ≤ i < lo + m) p.
Proof.
  induction m as [|m IH]; intros lo r p.
  - simpl. destruct r as [|r].
    + rewrite list_elem_of_singleton. split.
      * intros ->. repeat split; constructor.
      * intros (Hlen & _). by destruct p.
    + split; [by intros ?%elem_of_nil|].
      intros (Hlen & _ & Hp). destruct p as [|x p]; [done|].
      apply Forall_cons in Hp as [? _]. lia.
  - cbn [seq sublists]. destruct r as [|r].
    + rewrite list_elem_of_singleton. split.
      * intros ->. repeat split; constructor.
      * intros (Hlen & _). by destruct p.
    + rewrite elem_of_app, list_elem_of_fmap. split.
      * intros [(p' & -> & Hp')|Hp].
        -- apply IH in Hp' as (Hlen & Hsort & Hall).
           split; [simpl; lia|]. split.
           ++ constructor; [done|].
              eapply Forall_impl; [done|]. simpl. lia.
           ++ constructor; [lia|].
              eapply Forall_impl; [done|]. simpl. lia.
        -- apply IH in Hp as (Hlen & Hsort & Hall).
           split; [done|]. split; [done|].
           eapply Forall_impl; [done|]. simpl. lia.
      * intros (Hlen & Hsort & Hall).
        destruct p as [|x p]; [done|].
        apply StronglySorted_inv in Hsort as [Hsort Hx].
        apply Forall_cons in Hall as [Hlo Hall].
        destruct (decide (x = lo)) as [->|Hne].
        -- left. exists p. split; [done|]. apply IH.
           split; [simpl in Hlen; lia|]. split; [done|].
           apply Forall_forall. intros i Hi.
           rewrite Forall_forall in Hx, Hall.
           specialize (Hx i Hi). specialize (Hall i Hi). lia.
        -- right. apply IH. split; [done|]. split.
           ++ by constructor.
           ++ constructor; [lia|]. apply Forall_forall. intros i Hi.
              rewrite Forall_forall in Hx, Hall.
              specialize (Hx i Hi). specialize (Hall i Hi). lia.
Qed.

(** In that case they come in lexicographic order. *)
Lemma sublists_seq_sorted (m : nat) :
  ∀ lo r : nat, StronglySorted lex_lt (sublists r (seq lo m)).
Proof.
  induction m as [|m IH]; intros lo r.
  - destruct r; simpl; repeat constructor.
  - cbn [seq sublists]. destruct r as [|r]; [repeat constructor|].
    apply StronglySorted_app_2.
    + intros p q (p' & -> & _)%list_elem_of_fmap Hq.
      apply sublists_seq_elem_of in Hq as (Hlen & _ & Hall).
      destruct q as [|y q]; [done|].
      apply Forall_cons in Hall as [Hy _].
      apply lex_lt_head. lia.
    + eapply StronglySorted_fmap; [|apply IH].
      intros p q. apply lex_lt_tail.
    + apply IH.
Qed.

End Positions.


(** [for i := range s { s[i] = f(i) }], from position [len a0] on. *)
Lemma for_up_iota (f : Z → Z) (rest a0 : list Z) :
  for_up (length rest) (len a0) (λ i s, set s i (f i)) (a0 ++ rest)
  = Ok (a0 ++ (f <$> seqZ (len a0) (len rest))).
Proof.
  revert a0. induction rest as [|y rest IH]; intros a0.
  - simpl. done.
  - cbn [length for_up]. rewrite set_middle by done.
    cbn [bind mbind exec_bind].
    replace (a0 ++ f (len a0) :: rest) with ((a0 ++ [f (len a0)]) ++ rest)
      by (by rewrite <- app_assoc).
    replace (len a0 + 1) with (len (a0 ++ [f (len a0)]))
      by (rewrite len_app, len_cons; done).
    rewrite IH, <- app_assoc, len_app, len_cons. change (len []) with 0.
    replace (len (y :: rest)) with (Z.of_nat (S (length rest))) by done.
    rewrite seqZ_S. csimpl. do 4 f_equal; lia.
Qed.

Lemma make_fill (f : Z → Z) (r : nat) :
  (indices ← make (Z.of_nat r);
   for_up (length indices) 0 (λ i s, set s i (f i)) indices)
  = Ok (f <$> seqZ 0 (Z.of_nat r)).
Proof.
  unfold make. destruct (Z.ltb_spec (Z.of_nat r) 0); [lia|].
  cbn [bind mbind exec_bind].
  pose proof (for_up_iota f (replicate (Z.to_nat (Z.of_nat r)) 0) []) as Hf.
  cbn [app] in Hf. change (len (@nil Z)) with 0 in Hf. rewrite Hf. unfold len. rewrite length_replicate.
  by rewrite !Nat2Z.id.
Qed.

Lemma combination_positions_in_pool (pool : list Z) (r : nat) :
  Forall (in_pool pool)
    (fmap (M := list) Z.of_nat <$> combination_positions (length pool) r).
Proof.
  rewrite Forall_fmap. apply Forall_forall. intros p Hp.
  apply sublists_seq_elem_of in Hp as (_ & _ & Hp).
  apply Forall_fmap. eapply Forall_impl; [done|].
  intros i Hi. simpl in *. unfold len. lia.
Qed.

(** C2, with positions in place of tuples where the claim speaks of
    duplicates.  For [1 <= r <= n], [Combinations] returns the tuples at
    the strictly increasing sequences of [r] positions below [n]: each
    of them, [n! / (r! (n-r)!)] in all, in lexicographic order of the
    position sequences, which are pairwise different; the tuples are
    pairwise different when the elements of the pool are.  One round of
    the main loop per tuple is enough. *)
Theorem Combinations_spec (fuel : nat) (pool : list Z) (r : Z) :
  1 ≤ r ≤ len pool →
  (choose (length pool) (Z.to_nat r) ≤ fuel)%nat →
  Combinations fuel pool r
  = Ok (image pool <$> combination_positions (length pool) (Z.to_nat r))
  ∧ length (combination_positions (length pool) (Z.to_nat r))
    = (fact (length pool)
       / (fact (Z.to_nat r) * fact (length pool - Z.to_nat r)))%nat
  ∧ (∀ p, p ∈ combination_positions (length pool) (Z.to_nat r)
       ↔ length p = Z.to_nat r ∧ StronglySorted lt p
         ∧ Forall (λ i, (i < length pool)%nat) p)
  ∧ StronglySorted lex_lt (combination_positions (length pool) (Z.to_nat r))
  ∧ NoDup (combination_positions (length pool) (Z.to_nat r))
  ∧ (NoDup pool →
     NoDup (image pool <$> combination_positions (length pool) (Z.to_nat r))).
Proof.
  intros Hr Hfuel. unfold len in Hr.
  set (n := length pool) in *. set (k := Z.to_nat r) in *.
  assert (r = Z.of_nat k) as Hk by lia.
  clearbody k. subst r.
  split; [|split; [|split; [|split; [|split]]]].
  - unfold Combinations.
    destruct (Z.gtb_spec (Z.of_nat k) (len pool)) as [Hgt|_];
      [unfold len in Hgt; lia|].
    destruct (Z.eqb_spec (Z.of_nat k) 0) as [?|_]; [lia|]. cbn [orb].
    pose proof (make_fill (λ i, i) k) as Hfill.
    cbn [bind mbind exec_bind] in Hfill |- *.
    destruct (make (Z.of_nat k)) as [indices| |]; try done.
    cbn [bind mbind exec_bind] in Hfill |- *.
    rewrite Hfill, list_fmap_id. cbn [bind mbind exec_bind].
    pose proof (cnext_trace (Z.of_nat n) n k 0 ltac:(lia) ltac:(lia))
      as Htrace.
    pose proof (combination_positions_in_pool pool k) as Hin.
    unfold combination_positions in *. fold n in Hin |- *.
    rewrite (seqZ_seq n), sublists_fmap in Htrace.
    destruct (trace_starts _ _ _ _ Htrace) as [l' Hl'].
    rewrite Hl' in Hin, Htrace.
    rewrite gather_imageZ by by apply Forall_cons in Hin as [? _].
    cbn [bind mbind exec_bind].
    rewrite <- (len_seqZ 0 k) at 1.
    rewrite (Combinations_loop_trace _ _ _ _ _ Htrace); [|done|].
    + f_equal. cbn [tail].
      change (imageZ pool <$> (seqZ 0 (Z.of_nat k) :: l')
              = image pool <$> sublists k (seq 0 n)).
      rewrite <- Hl', <- list_fmap_compose. apply list_fmap_ext.
      intros _ p _. apply imageZ_of_nat.
    + rewrite <- Hl', length_fmap, sublists_length, length_seq. done.
  - unfold combination_positions.
    rewrite sublists_length, length_seq. apply choose_div. lia.
  - intros p. unfold combination_positions.
    rewrite sublists_seq_elem_of.
    split; intros (? & ? & Hall); (split; [done|split; [done|]]);
      (eapply Forall_impl; [done|]); simpl; lia.
  - apply sublists_seq_sorted.
  - apply sublists_NoDup, NoDup_seq.
  - intros Hpool. unfold combination_positions, image.
    rewrite <- sublists_fmap, fmap_nth_seq. by apply sublists_NoDup.
Qed.

Lemma Combinations_spec_witness :
  1 ≤ 2 ≤ len [1; 2; 3 : Z]
  ∧ (choose (length [1; 2; 3]%Z) (Z.to_nat 2) ≤ 3)%nat
  ∧ Combinations 3 [1; 2; 3] 2 = Ok [[1; 2]; [1; 3]; [2; 3]].
Proof.
  assert (H1 : 1 ≤ 2 ≤ len [1; 2; 3 : Z]) by (unfold len; simpl; lia).
  assert (H2 : (choose (length [1; 2; 3]%Z) (Z.to_nat 2) ≤ 3)%nat)
    by (simpl; lia).
  split; [exact H1|]. split; [exact H2|].
  apply (Combinations_spec 3 [1; 2; 3] 2 H1 H2).
Defined.

(** C2 as stated fails on a pool with a repeated element: the two
    1-element tuples of [[1; 1]] are equal. *)
Lemma Combinations_duplicate_tuples :
  Combinations 2 [1; 1] 1 = Ok [[1]; [1]] ∧ ¬ NoDup [[1]; [1 : Z]].
Proof.
  split; [reflexivity|].
  intros [Hin _]%NoDup_cons. apply Hin. by constructor.
Qed.


(** ** Permutations *)

Lemma pnext_length {A} (cyc : list Z) :
  ∀ (idx : list A) b idx' cyc',
    pnext idx cyc = (b, (idx', cyc')) →
    length idx' = length idx ∧ length cyc' = length cyc.
Proof.
  induction cyc as [|c cs IH]; intros idx b idx' cyc' H.
  - destruct idx; simpl in H; by inversion H.
  - destruct idx as [|x rest]; simpl in H; [by inversion H|].
    destruct (pnext rest cs) as [b0 [rest' cs']] eqn:E.
    destruct (IH _ _ _ _ E) as [Hi Hc].
    destruct b0; [|destruct (c - 1 =? 0)]; inversion H; subst; simpl.
    + by rewrite Hi, Hc.
    + rewrite length_app, Hi, Hc. simpl. lia.
    + unfold swap_head.
      destruct (rest' !! Z.to_nat (len (x :: rest') - (c - 1) - 1));
        simpl; rewrite ?length_insert, Hi, Hc; done.
Qed.

Lemma pnext_app_true {A} (cpre : list Z) :
  ∀ (ipre t : list A) ct t' ct',
    length ipre = length cpre →
    pnext t ct = (true, (t', ct')) →
    pnext (ipre ++ t) (cpre ++ ct) = (true, (ipre ++ t', cpre ++ ct')).
Proof.
  induction cpre as [|c cpre IH]; intros [|x ipre] t ct t' ct' Hlen H;
    try done.
  simpl in *. by rewrite (IH ipre t ct t' ct') by (lia || done).
Qed.

Lemma swap_head_middle {A} (q : Z) (x y : A) (t1 t2 : list A) :
  q = len t1 + 1 →
  swap_head q (x :: t1 ++ y :: t2) = y :: t1 ++ x :: t2.
Proof.
  intros ->. unfold swap_head.
  replace (Z.to_nat (len t1 + 1 - 1)) with (length t1) by (unfold len; lia).
  rewrite list_lookup_middle by done.
  rewrite insert_app_r_alt by done. by rewrite Nat.sub_diag.
Qed.

Lemma cycles_ok_app (cpre ct : list Z) (m : Z) :
  cycles_ok m (cpre ++ ct) ↔ cycles_ok m cpre ∧ cycles_ok (m - len cpre) ct.
Proof.
  revert m. induction cpre as [|c cpre IH]; intros m; simpl.
  - change (len []) with 0. rewrite Z.sub_0_r. tauto.
  - rewrite IH, len_cons.
    replace (m - 1 - len cpre) with (m - (1 + len cpre)) by lia. tauto.
Qed.

(** Lines 371-373 move the elements after position [len a] one place to
    the left. *)
Lemma Permutations_shift {A} (t a : list A) (x : A) :
  for_up (length t) (len a)
    (λ j indices, v ← get indices (j + 1); set indices j v)
    (a ++ x :: t)
  = Ok (a ++ t ++ [default x (last t)]).
Proof.
  revert a x. induction t as [|y t IH]; intros a x; [done|].
  cbn [length for_up].
  replace (a ++ x :: y :: t) with ((a ++ [x]) ++ y :: t)
    by (by rewrite <- app_assoc).
  rewrite get_middle by (rewrite len_app, len_cons; done).
  cbn [bind mbind exec_bind].
  rewrite <- app_assoc. simpl app. rewrite set_middle by done.
  cbn [bind mbind exec_bind].
  replace (a ++ y :: y :: t) with ((a ++ [y]) ++ y :: t)
    by (by rewrite <- app_assoc).
  replace (len a + 1) with (len (a ++ [y]))
    by (rewrite len_app, len_cons; done).
  rewrite IH, <- app_assoc. simpl app. do 3 f_equal.
  f_equal. f_equal. destruct t as [|z t]; [done|].
  change (last (y :: z :: t)) with (last (z :: t)).
  destruct (last (z :: t)) eqn:E; [done|]. by apply last_None in E.
Qed.

Lemma Permutations_scan_S (n : Z) (k : nat) (indices cycles : list Z) :
  Permutations_scan n (S k) indices cycles
  = (let i := Z.of_nat k in
     c ← get cycles i;
     cycles ← set cycles i (c - 1);
     c ← get cycles i;
     if c =? 0 then
       index ← get indices i;
       indices ←
         for_up (Z.to_nat (n - 1 - i)) i
           (λ j indices, v ← get indices (j + 1); set indices j v)
           indices;
       indices ← set indices (n - 1) index;
       cycles ← set cycles i (n - i);
       Permutations_scan n k indices cycles
     else
       let j := c in
       a ← get indices (n - j);
       b ← get indices i;
       indices ← set indices i a;
       indices ← set indices (n - j) b;
       Ok (i, indices, cycles)).
Proof. reflexivity. Qed.

(** The scan of lines 366-389, entered at level [length cpre] over the
    state the levels to the right wrapped around to, is [pnext]; it
    leaves with [i < 0] exactly when every level wrapped around. *)
Lemma Permutations_scan_pnext (cpre : list Z) :
  ∀ (ipre t t' : list Z) (ct ct' : list Z) (n : Z),
    length ipre = length cpre →
    n = len (ipre ++ t) →
    cycles_ok n cpre →
    pnext t ct = (false, (t', ct')) →
    ∃ i idx' cyc',
      Permutations_scan n (length cpre) (ipre ++ t') (cpre ++ ct')
      = Ok (i, idx', cyc')
      ∧ pnext (ipre ++ t) (cpre ++ ct) = (negb (i <? 0), (idx', cyc')).
Proof.
  induction cpre as [|c cpre IH] using rev_ind;
    intros ipre t t' ct ct' n Hlen Hn Hok Hnext.
  - destruct ipre; [|done]. exists (-1), t', ct'. by split.
  - destruct ipre as [|x ipre _] using rev_ind;
      [rewrite length_app in Hlen; simpl in Hlen; lia|].
    rewrite !length_app in Hlen. simpl in Hlen.
    assert (length ipre = length cpre) as Hlen' by lia.
    apply cycles_ok_app in Hok as [Hok [Hc _]].
    destruct (pnext_length _ _ _ _ _ Hnext) as [Ht' _].
    rewrite len_app, len_app, len_cons in Hn. change (len (@nil Z)) with 0 in Hn.
    assert (len ipre = len cpre) as Hli by (unfold len; lia).
    assert (len t' = len t) as Hlt by (unfold len; lia).
    rewrite length_app, Nat.add_1_r, Permutations_scan_S. cbv zeta.
    rewrite <- !(app_assoc _ [_]). simpl app.
    rewrite (get_middle cpre) by done. cbn [bind mbind exec_bind].
    rewrite (set_middle cpre) by done. cbn [bind mbind exec_bind].
    rewrite (get_middle cpre) by done. cbn [bind mbind exec_bind].
    destruct (Z.eqb_spec (c - 1) 0) as [Hc0|Hc0].
    + rewrite (get_middle ipre) by (unfold len; lia).
      cbn [bind mbind exec_bind].
      replace (Z.to_nat (n - 1 - Z.of_nat (length cpre))) with (length t')
        by (unfold len in *; lia).
      replace (Z.of_nat (length cpre)) with (len ipre) by (unfold len; lia).
      rewrite Permutations_shift. cbn [bind mbind exec_bind].
      rewrite (app_assoc ipre t'), (set_middle (ipre ++ t'))
        by (rewrite len_app; lia).
      cbn [bind mbind exec_bind].
      rewrite (set_middle cpre) by lia. cbn [bind mbind exec_bind].
      rewrite <- app_assoc.
      apply (IH ipre (x :: t) (t' ++ [x]) (c :: ct) (n - len ipre :: ct') n);
        [done|rewrite len_app, len_cons; lia|done|].
      simpl. rewrite Hnext.
      destruct (Z.eqb_spec (c - 1) 0); [|lia].
      do 3 f_equal. rewrite len_cons. lia.
    + pose proof (len_nonneg t') as Hnn.
      assert (is_Some (t' !! Z.to_nat (len t' - (c - 1)))) as [y Hy].
      { apply lookup_lt_is_Some_2. unfold len in *. lia. }
      pose proof (take_drop_middle _ _ _ Hy) as Hsplit.
      set (t1 := take (Z.to_nat (len t' - (c - 1))) t') in *.
      set (t2 := drop (S (Z.to_nat (len t' - (c - 1)))) t') in *.
      assert (len t1 = len t' - (c - 1)) as Ht1.
      { unfold len, t1. rewrite length_take. unfold len in *. lia. }
      clearbody t1 t2. subst t'.
      rewrite len_app, len_cons in *.
      replace (ipre ++ x :: t1 ++ y :: t2) with ((ipre ++ x :: t1) ++ y :: t2)
        by (by rewrite <- app_assoc).
      rewrite (get_middle (ipre ++ x :: t1) t2 y (n - (c - 1)))
        by (rewrite len_app, len_cons; lia).
      cbn [bind mbind exec_bind].
      rewrite <- app_assoc. simpl app.
      rewrite (get_middle ipre) by (unfold len; lia).
      cbn [bind mbind exec_bind].
      rewrite (set_middle ipre) by (unfold len; lia).
      cbn [bind mbind exec_bind].
      replace (ipre ++ y :: t1 ++ y :: t2) with ((ipre ++ y :: t1) ++ y :: t2)
        by (by rewrite <- app_assoc).
      rewrite (set_middle (ipre ++ y :: t1) t2 y x (n - (c - 1)))
        by (rewrite len_app, len_cons; lia).
      cbn [bind mbind exec_bind].
      eexists _, _, _. split; [done|].
      assert ((Z.of_nat (length cpre) <? 0) = false) as ->
        by (apply Z.ltb_ge; lia).
      rewrite <- !app_assoc. simpl app.
      apply pnext_app_true; [done|].
      cbn [pnext]. rewrite Hnext.
      destruct (Z.eqb_spec (c - 1) 0); [lia|].
      rewrite swap_head_middle; [done|].
      rewrite len_cons, len_app, len_cons. lia.
Qed.

Lemma take_fmap_seq (l : list Z) (r : nat) :
  (r ≤ length l)%nat → take r l = (λ k, nth k l 0) <$> seq 0 r.
Proof.
  intros Hr. apply list_eq. intros i.
  rewrite list_lookup_fmap. destruct (decide (i < r)%nat) as [Hi|Hi].
  - rewrite lookup_take_lt, lookup_seq_lt by done. simpl.
    destruct (nth_lookup_or_length l i 0); [done|lia].
  - rewrite lookup_take_ge, lookup_seq_ge by lia. done.
Qed.

(** Lines 380-383 gather the tuple at the first [r] positions. *)
Lemma Permutations_tuple (pool idx : list Z) (r : nat) :
  in_pool pool idx → (r ≤ length idx)%nat →
  fill_from (λ k, el ← get idx k; get pool el) (seqZ 0 (Z.of_nat r))
  = Ok (imageZ pool (take r idx)).
Proof.
  intros Hin Hr.
  rewrite (fill_from_Ok _
             (λ k, nth (Z.to_nat (nth (Z.to_nat k) idx 0)) pool 0)).
  - rewrite seqZ_seq, take_fmap_seq by done. unfold imageZ.
    rewrite <- !list_fmap_compose. f_equal. apply list_fmap_ext.
    intros _ k _. simpl. by rewrite Nat2Z.id.
  - apply Forall_forall. intros k Hk.
    apply elem_of_seqZ in Hk.
    destruct (nth_lookup_or_length idx (Z.to_nat k) 0) as [Hel|]; [|lia].
    rewrite (get_Ok _ _ _ (proj1 Hk) Hel). cbn [bind mbind exec_bind].
    unfold in_pool in Hin. rewrite Forall_forall in Hin.
    assert (0 ≤ nth (Z.to_nat k) idx 0 < len pool) as Hel'.
    { apply Hin. by eapply list_elem_of_lookup_2. }
    apply get_Ok; [lia|].
    destruct (nth_lookup_or_length pool (Z.to_nat (nth (Z.to_nat k) idx 0)) 0);
      [done|unfold len in Hel'; lia].
Qed.

(** One round of the main loop is one step of [pnext]. *)
Lemma Permutations_loop_S (fuel : nat) (pool : list Z) (r : nat)
    (s : list Z * list Z) (results : list (list Z)) b s' :
  (0 < r ≤ length pool)%nat →
  perm_state_ok pool r s →
  pstep s = (b, s') →
  (b = true → in_pool pool s'.1) →
  Permutations_loop (S fuel) pool (len pool) (Z.of_nat r) s.1 s.2 results
  = if b then
      Permutations_loop fuel pool (len pool) (Z.of_nat r) s'.1 s'.2
        (results ++ [imageZ pool (take r s'.1)])
    else Ok results.
Proof.
  destruct s as [idx cyc], s' as [idx' cyc'].
  intros Hr (Hlen & Hin & Hcyc & Hok) Hstep Hin'. simpl in *.
  cbn [Permutations_loop].
  destruct (Z.gtb_spec (len pool) 0) as [_|Hn]; [|unfold len in Hn; lia].
  replace (Z.to_nat (Z.of_nat r - 1 + 1)) with (length cyc) by lia.
  destruct (Permutations_scan_pnext cyc (take r idx) (drop r idx)
              (drop r idx) [] [] (len pool))
    as (i & idx1 & cyc1 & Hscan & Hnext).
  - rewrite length_take. unfold len in Hlen. lia.
  - by rewrite take_drop.
  - done.
  - by destruct (drop r idx).
  - rewrite take_drop, app_nil_r in Hscan, Hnext.
    unfold pstep in Hstep. simpl in Hstep. rewrite Hstep in Hnext.
    inversion Hnext; subst b idx1 cyc1.
    rewrite Hscan. cbn [bind mbind exec_bind].
    destruct (i <? 0); [done|]. cbn [negb] in *.
    rewrite Permutations_tuple; [done|by apply Hin'|].
    destruct (pnext_length _ _ _ _ _ Hstep) as [Hl _].
    unfold len in Hlen. lia.
Qed.

(** The main loop follows a run of [pnext]. *)
Lemma Permutations_loop_trace (pool : list Z) (r : nat)
    (s : list Z * list Z) (l : list (list Z * list Z)) (s' : list Z * list Z) :
  trace pstep s l s' →
  ∀ (fuel : nat) (results : list (list Z)),
    (0 < r ≤ length pool)%nat →
    Forall (perm_state_ok pool r) l → (length l ≤ fuel)%nat →
    Permutations_loop fuel pool (len pool) (Z.of_nat r) s.1 s.2 results
    = Ok (results ++ ((λ s, imageZ pool (take r s.1)) <$> tail l)).
Proof.
  induction 1 as [s s' Hs|s s1 l s' Hs Hl IH];
    intros fuel results Hr Hok Hfuel;
    (destruct fuel as [|fuel]; [simpl in Hfuel; lia|]);
    apply Forall_cons in Hok as [Hok Hrest].
  - rewrite (Permutations_loop_S _ _ _ _ _ false s' Hr Hok Hs) by done.
    by rewrite app_nil_r.
  - destruct (trace_starts _ _ _ _ Hl) as [l' ->].
    pose proof Hrest as [(_ & Hin1 & _) _]%Forall_cons.
    rewrite (Permutations_loop_S _ _ _ _ _ true s1 Hr Hok Hs) by done.
    rewrite IH; [|done|done|simpl in Hfuel |- *; lia].
    simpl. by rewrite <- app_assoc.
Qed.


Lemma cycles0_length (m : Z) (r : nat) : length (cycles0 m r) = r.
Proof. revert m. induction r as [|r IH]; intros m; simpl; [done|]. by rewrite IH. Qed.

Lemma cycles0_ok (r : nat) (m : Z) : Z.of_nat r ≤ m → cycles_ok m (cycles0 m r).
Proof.
  revert m. induction r as [|r IH]; intros m Hm; simpl; [done|].
  split; [lia|]. apply IH. lia.
Qed.

(** The run of one level from the element at position [len pre] on,
    given the runs of the levels to its right. *)
Lemma pnext_trace_level (r : nat) :
  (∀ av : list Z, (r ≤ length av)%nat →
     ∃ l, trace pstep (av, cycles0 (len av) r) l (av, cycles0 (len av) r)
          ∧ (λ s, take r s.1) <$> l = arrangements r av
          ∧ Forall (λ s, s.1 ≡ₚ av ∧ length s.2 = r
                         ∧ cycles_ok (len av) s.2) l) →
  ∀ (post pre : list Z) (x : Z),
    (S r ≤ length (pre ++ x :: post))%nat →
    ∃ l, trace pstep
           (x :: pre ++ post,
            len (pre ++ x :: post) - len pre
              :: cycles0 (len (pre ++ x :: post) - 1) r)
           l
           (pre ++ x :: post, cycles0 (len (pre ++ x :: post)) (S r))
         ∧ (λ s, take (S r) s.1) <$> l
           = ('(y, rest) ← picks_from pre (x :: post);
              cons y <$> arrangements r rest)
         ∧ Forall (λ s, s.1 ≡ₚ pre ++ x :: post ∧ length s.2 = S r
                        ∧ cycles_ok (len (pre ++ x :: post)) s.2) l.
Proof.
  intros IHr post. induction post as [|y post IH]; intros pre x Hlen.
  - rewrite length_app in Hlen. simpl in Hlen.
    destruct (IHr (pre ++ [])) as (l' & Htr & Hobs & Hinv);
      [rewrite length_app; simpl; lia|].
    rewrite len_app, len_cons in *. change (len (@nil Z)) with 0 in *.
    rewrite !Z.add_0_r in *.
    replace (len pre + 1 - len pre) with 1 by lia.
    replace (len pre + 1 - 1) with (len pre) by lia.
    exists ((λ s, (x :: s.1, 1 :: s.2)) <$> l'). split; [|split].
    + apply (trace_lift_last _ _ (λ s, (x :: s.1, 1 :: s.2)) _ _ _ _ Htr).
      * intros [t ct] [t' ct'] _ Ht. unfold pstep in *. simpl in *.
        by rewrite Ht.
      * intros [t ct] _ Ht. unfold pstep in *. simpl in *.
        rewrite Ht. simpl. rewrite !app_nil_r, len_cons.
        do 3 f_equal; [lia|f_equal; lia].
    + cbn [picks_from]. rewrite bind_cons. csimpl. rewrite app_nil_r.
      rewrite <- Hobs, <- !list_fmap_compose. done.
    + rewrite Forall_fmap. eapply Forall_impl; [done|].
      intros [t ct] (Hp & Hl & Hok). simpl in *.
      pose proof (len_nonneg pre).
      split; [|split; [by rewrite Hl|split; [lia|]]].
      * rewrite Hp, app_nil_r. apply Permutation_cons_append.
      * by replace (len pre + 1 - 1) with (len pre) by lia.
  - rewrite length_app in Hlen. simpl in Hlen.
    destruct (IHr (pre ++ y :: post)) as (l' & Htr & Hobs & Hinv);
      [rewrite length_app; simpl; lia|].
    destruct (IH (pre ++ [x]) y) as (l2 & Htr2 & Hobs2 & Hinv2);
      [rewrite !length_app; simpl; lia|].
    repeat rewrite <- app_assoc in Htr2.
    repeat rewrite <- app_assoc in Hinv2. simpl app in *.
    set (n := len (pre ++ x :: y :: post)) in *.
    assert (n = len pre + 2 + len post) as Hn.
    { unfold n. rewrite len_app, !len_cons. lia. }
    assert (len (pre ++ y :: post) = n - 1) as Hn1.
    { rewrite len_app, len_cons. lia. }
    rewrite Hn1 in *.
    pose proof (len_nonneg pre). pose proof (len_nonneg post).
    exists (((λ s, (x :: s.1, n - len pre :: s.2)) <$> l') ++ l2).
    split; [|split].
    + match type of Htr2 with
      | trace _ ?s2 _ _ =>
          apply (trace_lift_more _ _ (λ s, (x :: s.1, n - len pre :: s.2))
                   _ _ _ s2 _ _ Htr); [| |exact Htr2]
      end.
      * intros [t ct] [t' ct'] _ Ht. unfold pstep in *. simpl in *.
        by rewrite Ht.
      * intros [t ct] _ Ht. unfold pstep in *. cbn [fst snd pnext] in *.
        rewrite Ht.
        destruct (Z.eqb_spec (n - len pre - 1) 0); [lia|].
        rewrite swap_head_middle by (rewrite len_cons, Hn1; lia).
        rewrite len_app, len_cons. change (len (@nil Z)) with 0.
        do 3 f_equal. lia.
    + cbn [picks_from]. rewrite bind_cons. rewrite fmap_app. f_equal.
      * rewrite <- Hobs, <- !list_fmap_compose. done.
      * exact Hobs2.
    + apply Forall_app. split; [|done].
      rewrite Forall_fmap. eapply Forall_impl; [done|].
      intros [t ct] (Hp & Hl & Hok). simpl in *.
      split; [|split; [by rewrite Hl|split; [lia|done]]].
      rewrite Hp. apply Permutation_middle.
Qed.

(** From the identity, [pnext] runs through the states whose first [r]
    positions are the arrangements of [r] elements of [av], in order, and
    wraps around to the identity. *)
Lemma pnext_trace (r : nat) :
  ∀ av : list Z, (r ≤ length av)%nat →
    ∃ l, trace pstep (av, cycles0 (len av) r) l (av, cycles0 (len av) r)
         ∧ (λ s, take r s.1) <$> l = arrangements r av
         ∧ Forall (λ s, s.1 ≡ₚ av ∧ length s.2 = r
                        ∧ cycles_ok (len av) s.2) l.
Proof.
  induction r as [|r IHr]; intros av Hr.
  - exists [(av, [])]. split; [|split].
    + apply trace_last. unfold pstep. by destruct av.
    + simpl. by rewrite take_0.
    + by repeat constructor.
  - destruct av as [|x post]; [simpl in Hr; lia|].
    destruct (pnext_trace_level r IHr post [] x Hr)
      as (l & Htr & Hobs & Hinv).
    simpl app in *. change (len (@nil Z)) with 0 in Htr.
    rewrite Z.sub_0_r in Htr.
    exists l. done.
Qed.


(** ** Arrangements *)

Section FallingFactorial.
#[local] Open Scope nat_scope.

Lemma ffact_fact (r m : nat) : r ≤ m → ffact m r * fact (m - r) = fact m.
Proof.
  revert m. induction r as [|r IH]; intros m Hr; simpl; [by rewrite Nat.sub_0_r; lia|].
  destruct m as [|m]; [lia|].
  simpl. rewrite Nat.sub_0_r. specialize (IH m ltac:(lia)). nia.
Qed.

Lemma ffact_div (r m : nat) : r ≤ m → ffact m r = fact m / fact (m - r).
Proof.
  intros Hr. rewrite <- (ffact_fact r m Hr), Nat.div_mul; [done|].
  apply fact_neq_0.
Qed.

End FallingFactorial.

Section Picks.
#[local] Open Scope nat_scope.
Context {A : Type}.
Implicit Types (l pre rest : list A).

Lemma picks_from_fst pre l : (picks_from pre l).*1 = l.
Proof.
  revert pre. induction l as [|x l IH]; intros pre; csimpl; [done|].
  by rewrite IH.
Qed.

Lemma picks_from_length pre l : length (picks_from pre l) = length l.
Proof. by rewrite <- (picks_from_fst pre l) at 2; rewrite length_fmap. Qed.

Lemma picks_from_elem_of pre l y rest :
  (y, rest) ∈ picks_from pre l
  ↔ ∃ l1 l2, l = l1 ++ y :: l2 ∧ rest = pre ++ l1 ++ l2.
Proof.
  revert pre. induction l as [|x l IH]; intros pre; simpl.
  - split; [by intros ?%elem_of_nil|].
    intros (l1 & l2 & Hl & _). by destruct l1.
  - rewrite elem_of_cons, IH. split.
    + intros [[= -> ->]|(l1 & l2 & -> & ->)].
      * by exists [], l.
      * exists (x :: l1), l2. by rewrite <- app_assoc.
    + intros (l1 & l2 & Hl & ->). destruct l1 as [|x' l1].
      * simpl in Hl. inversion Hl; subst. by left.
      * simpl in Hl. inversion Hl; subst. right.
        exists l1, l2. by rewrite <- app_assoc.
Qed.

Lemma picks_from_unique pre l y rest1 rest2 :
  NoDup l → (y, rest1) ∈ picks_from pre l → (y, rest2) ∈ picks_from pre l →
  rest1 = rest2.
Proof.
  intros Hl H1 H2.
  apply list_elem_of_lookup in H1 as [i Hi], H2 as [j Hj].
  assert (l !! i = Some y) as Hi'.
  { rewrite <- (picks_from_fst pre l), list_lookup_fmap, Hi. done. }
  assert (l !! j = Some y) as Hj'.
  { rewrite <- (picks_from_fst pre l), list_lookup_fmap, Hj. done. }
  assert (i = j) as -> by (by eapply NoDup_lookup).
  congruence.
Qed.

Lemma picks_from_NoDup pre l : NoDup l → NoDup (picks_from pre l).
Proof.
  intros Hl. apply (NoDup_fmap_1 fst). by rewrite picks_from_fst.
Qed.

End Picks.

Lemma picks_from_fmap {A B} (f : A → B) (l pre : list A) :
  picks_from (f <$> pre) (f <$> l)
  = (λ yr : A * list A, (f yr.1, f <$> yr.2)) <$> picks_from pre l.
Proof.
  revert pre. induction l as [|x l IH]; intros pre; csimpl; [done|].
  rewrite fmap_app. f_equal.
  change [f x] with (f <$> [x]). by rewrite <- fmap_app, IH.
Qed.

Lemma arrangements_fmap {A B} (f : A → B) (r : nat) (l : list A) :
  arrangements r (f <$> l) = fmap (M := list) f <$> arrangements r l.
Proof.
  revert l. induction r as [|r IH]; intros l; [done|].
  cbn [arrangements].
  change (@nil B) with (f <$> @nil A). rewrite picks_from_fmap.
  generalize (picks_from [] l). intros ps.
  induction ps as [|[y rest] ps IHps]; [done|].
  csimpl. rewrite fmap_app, <- IHps, IH. f_equal.
  rewrite <- !list_fmap_compose. done.
Qed.

Section Arrangements.
#[local] Open Scope nat_scope.
Context {A : Type}.
Implicit Types (l p : list A).

Lemma arrangements_S r l :
  arrangements (S r) l
  = '(x, rest) ← picks_from [] l; cons x <$> arrangements r rest.
Proof. reflexivity. Qed.

Lemma arrangements_length r l :
  length (arrangements r l) = ffact (length l) r.
Proof.
  revert l. induction r as [|r IH]; intros l; [done|].
  rewrite arrangements_S,
    (length_bind_uniform _ _ (ffact (length l - 1) r)).
  - by rewrite picks_from_length.
  - intros [y rest] (l1 & l2 & -> & ->)%picks_from_elem_of.
    rewrite length_fmap, IH. f_equal.
    rewrite !length_app. simpl. lia.
Qed.

Lemma arrangements_elem_of r l p :
  NoDup l →
  p ∈ arrangements r l ↔ length p = r ∧ NoDup p ∧ p ⊆ l.
Proof.
  revert l p. induction r as [|r IH]; intros l p Hl.
  - simpl. rewrite list_elem_of_singleton. split.
    + intros ->. split; [done|]. split; [constructor|].
      apply list_subseteq_nil.
    + intros (Hlen & _). by destruct p.
  - rewrite arrangements_S, list_elem_of_bind. split.
    + intros ([y rest] & Hp & Hpick).
      apply list_elem_of_fmap in Hp as (p' & -> & Hp').
      apply picks_from_elem_of in Hpick as (l1 & l2 & -> & ->).
      simpl in *. apply NoDup_app in Hl as (Hl1 & Hl12 & Hl2).
      apply NoDup_cons in Hl2 as [Hy Hl2].
      apply IH in Hp' as (Hlen & Hnd & Hsub).
      * split; [simpl; lia|]. split.
        -- constructor; [|done]. intros Hin. apply Hsub in Hin.
           apply elem_of_app in Hin as [Hin|Hin]; [|done].
           apply (Hl12 _ Hin). by constructor.
        -- intros z Hz. apply elem_of_cons in Hz as [->|Hz].
           ++ apply elem_of_app. right. by constructor.
           ++ apply Hsub, elem_of_app in Hz as [Hz|Hz];
                apply elem_of_app; [by left|right; by constructor].
      * apply NoDup_app. split; [done|]. split; [|done].
        intros z Hz1 Hz2. apply (Hl12 _ Hz1). by constructor.
    + intros (Hlen & Hnd & Hsub). destruct p as [|y p]; [done|].
      apply NoDup_cons in Hnd as [Hy Hnd].
      assert (y ∈ l) as Hyl by (apply Hsub; by constructor).
      apply list_elem_of_split in Hyl as (l1 & l2 & ->).
      exists (y, l1 ++ l2). split.
      * apply list_elem_of_fmap. exists p. split; [done|].
        apply NoDup_app in Hl as (Hl1 & Hl12 & Hl2).
        apply NoDup_cons in Hl2 as [Hy2 Hl2].
        apply IH.
        -- apply NoDup_app. split; [done|]. split; [|done].
           intros z Hz1 Hz2. apply (Hl12 _ Hz1). by constructor.
        -- split; [simpl in Hlen; lia|]. split; [done|].
           intros z Hz. assert (z ∈ l1 ++ y :: l2) as Hzl
             by (apply Hsub; by constructor).
           apply elem_of_app in Hzl as [?|Hzl]; apply elem_of_app;
             [by left|].
           apply elem_of_cons in Hzl as [->|?]; [done|by right].
      * apply picks_from_elem_of. by exists l1, l2.
Qed.

Lemma arrangements_NoDup r l : NoDup l → NoDup (arrangements r l).
Proof.
  revert l. induction r as [|r IH]; intros l Hl.
  - apply NoDup_singleton.
  - rewrite arrangements_S. apply NoDup_bind.
    + intros [y1 rest1] [y2 rest2] p H1 H2 Hp1 Hp2.
      apply list_elem_of_fmap in Hp1 as (p1 & -> & _).
      apply list_elem_of_fmap in Hp2 as (p2 & [= <- _] & _).
      f_equal. by eapply picks_from_unique.
    + intros [y rest] (l1 & l2 & -> & ->)%picks_from_elem_of.
      apply NoDup_fmap_2; [by intros ?? [=]|]. apply IH.
      simpl. apply NoDup_app in Hl as (Hl1 & Hl12 & Hl2).
      apply NoDup_cons in Hl2 as [Hy2 Hl2].
      apply NoDup_app. split; [done|]. split; [|done].
      intros z Hz1 Hz2. apply (Hl12 _ Hz1). by constructor.
    + by apply picks_from_NoDup.
Qed.

End Arrangements.


Lemma StronglySorted_bind {K B} (R1 : relation K) (R2 : relation B)
    (f : K → list B) (ks : list K) :
  StronglySorted R1 ks →
  (∀ k, k ∈ ks → StronglySorted R2 (f k)) →
  (∀ k1 k2 x y, k1 ∈ ks → k2 ∈ ks → R1 k1 k2 →
     x ∈ f k1 → y ∈ f k2 → R2 x y) →
  StronglySorted R2 (ks ≫= f).
Proof.
  induction 1 as [|k ks Hks IH Hk]; intros Hblock Hcross; [constructor|].
  rewrite bind_cons. apply StronglySorted_app_2.
  - intros x y Hx (k2 & Hy & Hk2)%list_elem_of_bind.
    rewrite Forall_forall in Hk.
    apply (Hcross k k2); [by constructor|by constructor|by apply Hk|done|done].
  - apply Hblock. by constructor.
  - apply IH.
    + intros k' Hk'. apply Hblock. by constructor.
    + intros k1 k2 x y H1 H2. apply Hcross; by constructor.
Qed.

Lemma picks_from_sorted (l pre : list nat) :
  StronglySorted lt l →
  StronglySorted (λ a b : nat * list nat, (a.1 < b.1)%nat) (picks_from pre l).
Proof.
  intros Hl. revert pre. induction Hl as [|x l Hl IH Hx]; intros pre; simpl.
  - constructor.
  - constructor; [apply IH|].
    apply Forall_forall. intros [y rest] Hy. simpl.
    rewrite Forall_forall in Hx. apply Hx.
    rewrite <- (picks_from_fst (pre ++ [x]) l).
    apply list_elem_of_fmap. by exists (y, rest).
Qed.

(** Arrangements of increasing positions come in lexicographic order. *)
Lemma arrangements_sorted (r : nat) (l : list nat) :
  StronglySorted lt l → StronglySorted lex_lt (arrangements r l).
Proof.
  revert l. induction r as [|r IH]; intros l Hl.
  - repeat constructor.
  - rewrite arrangements_S.
    apply (StronglySorted_bind (λ a b : nat * list nat, (a.1 < b.1)%nat)).
    + by apply picks_from_sorted.
    + intros [y rest] (l1 & l2 & -> & ->)%picks_from_elem_of.
      eapply StronglySorted_fmap; [intros p q; apply lex_lt_tail|].
      apply IH. simpl.
      apply StronglySorted_app in Hl as (Hcross & Hl1 & Hl2).
      apply StronglySorted_inv in Hl2 as [Hl2 _].
      apply StronglySorted_app_2; [|done|done].
      intros a b Ha Hb. apply Hcross; [done|by constructor].
    + intros [y1 rest1] [y2 rest2] p q _ _ Hlt
        (p' & -> & _)%list_elem_of_fmap (q' & -> & _)%list_elem_of_fmap.
      by apply lex_lt_head.
Qed.

Lemma StronglySorted_seq (lo n : nat) : StronglySorted lt (seq lo n).
Proof.
  revert lo. induction n as [|n IH]; intros lo; simpl; [constructor|].
  constructor; [apply IH|].
  apply Forall_forall. intros i Hi%elem_of_seq. lia.
Qed.

Lemma cycles0_seqZ (m lo : Z) (r : nat) :
  (λ i, m - i) <$> seqZ lo (Z.of_nat r) = cycles0 (m - lo) r.
Proof.
  revert lo. induction r as [|r IH]; intros lo; [done|].
  rewrite seqZ_S. csimpl. rewrite IH. do 2 f_equal. lia.
Qed.

Lemma in_pool_seqZ (pool : list Z) : in_pool pool (seqZ 0 (len pool)).
Proof.
  apply Forall_forall. intros i Hi%elem_of_seqZ. lia.
Qed.

(** The states of the run from the identity are states of
    [Permutations] on [pool]. *)
Lemma perm_state_ok_Permutation (pool : list Z) (r : nat)
    (s : list Z * list Z) :
  s.1 ≡ₚ seqZ 0 (len pool) → length s.2 = r →
  cycles_ok (len (seqZ 0 (len pool))) s.2 →
  perm_state_ok pool r s.
Proof.
  intros Hp Hl Hok. unfold perm_state_ok.
  assert (len (seqZ 0 (len pool)) = len pool) as Hlen by apply len_seqZ.
  split; [|split; [|split]].
  - unfold len at 1. rewrite Hp. exact Hlen.
  - unfold in_pool. rewrite Hp. apply in_pool_seqZ.
  - done.
  - by rewrite <- Hlen.
Qed.

(** C1, with positions in place of tuples where the claim speaks of
    duplicates.  For [1 <= r <= n], [Permutations] returns the tuples at
    the sequences of [r] pairwise different positions below [n]: each of
    them, [n! / (n-r)!] in all, in lexicographic order of the position
    sequences, which are pairwise different; the tuples are pairwise
    different when the elements of the pool are.  One round of the main
    loop per tuple is enough. *)
Theorem Permutations_spec (fuel : nat) (pool : list Z) (r : Z) :
  1 ≤ r ≤ len pool →
  (fact (length pool) / fact (length pool - Z.to_nat r) ≤ fuel)%nat →
  Permutations fuel pool r
  = Ok (image pool <$> permutation_positions (length pool) (Z.to_nat r))
  ∧ length (permutation_positions (length pool) (Z.to_nat r))
    = (fact (length pool) / fact (length pool - Z.to_nat r))%nat
  ∧ (∀ p, p ∈ permutation_positions (length pool) (Z.to_nat r)
       ↔ length p = Z.to_nat r ∧ NoDup p
         ∧ Forall (λ i, (i < length pool)%nat) p)
  ∧ StronglySorted lex_lt (permutation_positions (length pool) (Z.to_nat r))
  ∧ NoDup (permutation_positions (length pool) (Z.to_nat r))
  ∧ (NoDup pool →
     NoDup (image pool <$> permutation_positions (length pool) (Z.to_nat r))).
Proof.
  intros Hr Hfuel. unfold len in Hr.
  set (n := length pool) in *. set (k := Z.to_nat r) in *.
  assert (r = Z.of_nat k) as Hk by lia.
  clearbody k. subst r. unfold permutation_positions.
  rewrite <- ffact_div in * by lia.
  split; [|split; [|split; [|split; [|split]]]].
  - unfold Permutations.
    destruct (Z.gtb_spec (Z.of_nat k) (len pool)) as [Hgt|_];
      [unfold len in Hgt; lia|].
    destruct (Z.eqb_spec (Z.of_nat k) 0) as [?|_]; [lia|]. cbn [orb].
    pose proof (make_fill (λ i, i) n) as Hfill.
    cbn [bind mbind exec_bind] in Hfill |- *.
    change (len pool) with (Z.of_nat n).
    destruct (make (Z.of_nat n)) as [indices| |]; try done.
    cbn [bind mbind exec_bind] in Hfill |- *.
    rewrite Hfill, list_fmap_id. cbn [bind mbind exec_bind].
    clear Hfill indices.
    pose proof (make_fill (λ i, Z.of_nat n - i) k) as Hfill.
    cbn [bind mbind exec_bind] in Hfill |- *.
    destruct (make (Z.of_nat k)) as [cycles| |]; try done.
    cbn [bind mbind exec_bind] in Hfill |- *.
    rewrite Hfill, cycles0_seqZ, Z.sub_0_r. cbn [bind mbind exec_bind].
    clear Hfill cycles.
    pose proof (in_pool_seqZ pool) as Hin0.
    change (len pool) with (Z.of_nat n) in Hin0.
    rewrite Nat2Z.id.
    rewrite gather_imageZ by (by apply Forall_take).
    cbn [bind mbind exec_bind].
    destruct (pnext_trace k (seqZ 0 (Z.of_nat n)))
      as (l & Htrace & Hobs & Hinv); [rewrite length_seqZ; lia|].
    rewrite len_seqZ in Htrace.
    rewrite (Permutations_loop_trace pool k _ _ _ Htrace).
    + destruct (trace_starts _ _ _ _ Htrace) as [l' ->].
      f_equal. cbn [tail fst].
      trans (imageZ pool <$> arrangements k (seqZ 0 (Z.of_nat n))).
      * rewrite <- Hobs. csimpl. f_equal. by rewrite <- list_fmap_compose.
      * rewrite seqZ_seq, arrangements_fmap, <- list_fmap_compose.
        apply list_fmap_ext. intros _ p _. apply imageZ_of_nat.
    + lia.
    + eapply Forall_impl; [done|]. intros s (Hp & Hl & Hok).
      by apply perm_state_ok_Permutation.
    + rewrite <- (length_fmap (λ s : list Z * list Z, take k s.1)), Hobs.
      rewrite arrangements_length, length_seqZ, Nat2Z.id. done.
  - by rewrite arrangements_length, length_seq.
  - intros p. rewrite arrangements_elem_of by apply NoDup_seq.
    split; intros (Hlen & Hnd & Hsub); (split; [done|split; [done|]]).
    + apply Forall_forall. intros i Hi%Hsub%elem_of_seq. lia.
    + intros i Hi. rewrite Forall_forall in Hsub.
      apply elem_of_seq. specialize (Hsub i Hi). lia.
  - apply arrangements_sorted, StronglySorted_seq.
  - apply arrangements_NoDup, NoDup_seq.
  - intros Hpool. unfold image.
    rewrite <- arrangements_fmap, fmap_nth_seq. by apply arrangements_NoDup.
Qed.

Lemma Permutations_spec_witness :
  1 ≤ 2 ≤ len [1; 2; 3 : Z]
  ∧ (fact (length [1; 2; 3]%Z) / fact (length [1; 2; 3]%Z - Z.to_nat 2)
     ≤ 6)%nat
  ∧ Permutations 6 [1; 2; 3] 2
    = Ok [[1; 2]; [1; 3]; [2; 1]; [2; 3]; [3; 1]; [3; 2]].
Proof.
  assert (H1 : 1 ≤ 2 ≤ len [1; 2; 3 : Z]) by (unfold len; simpl; lia).
  assert (H2 : (fact (length [1; 2; 3]%Z)
                / fact (length [1; 2; 3]%Z - Z.to_nat 2) ≤ 6)%nat)
    by (vm_compute; lia).
  split; [exact H1|]. split; [exact H2|].
  apply (Permutations_spec 6 [1; 2; 3] 2 H1 H2).
Defined.

(** C1 as stated fails on a pool with a repeated element: the two
    1-element tuples of [[1; 1]] are equal. *)
Lemma Permutations_duplicate_tuples :
  Permutations 2 [1; 1] 1 = Ok [[1]; [1]] ∧ ¬ NoDup [[1]; [1 : Z]].
Proof.
  split; [reflexivity|].
  intros [Hin _]%NoDup_cons. apply Hin. by constructor.
Qed.

(** * Further properties of the package *)

(** ** Count, whatever the arithmetic does *)

Lemma Count_loop_before_stop (fuel : nat) (stop step : Z) :
  ∀ (i : Z) (acc l : list Z),
    Count_loop fuel stop step i acc = Ok l →
    acc `prefix_of` l
    ∧ (Forall (λ v, (step > 0 ∧ v < stop) ∨ (step < 0 ∧ v > stop)) acc →
       Forall (λ v, (step > 0 ∧ v < stop) ∨ (step < 0 ∧ v > stop)) l).
Proof.
  induction fuel as [|fuel IH]; intros i acc l; simpl;
    destruct (((step >? 0) && (i <? stop)) || ((step <? 0) && (i >? stop)))
      eqn:Hcond; try done; try (intros [= <-]; by split).
  intros Hloop. destruct (IH _ _ _ Hloop) as [Hpre Hall]. split.
  - etrans; [|exact Hpre]. by apply prefix_app_r.
  - intros Hacc. apply Hall, Forall_app. split; [done|].
    constructor; [|done].
    destruct (Z.gtb_spec step 0), (Z.ltb_spec i stop),
      (Z.ltb_spec step 0), (Z.gtb_spec i stop); simpl in Hcond;
      try done; lia.
Qed.

(** X2. Whatever [Count] returns, also where the arithmetic wraps
    around: every value lies strictly before [stop] in the direction of
    [step], and a result that is not empty starts with [start]. *)
Theorem Count_before_stop (fuel : nat) (start stop step : Z) (l : list Z) :
  Count fuel start stop step = Ok l →
  Forall (λ v, (step > 0 ∧ v < stop) ∨ (step < 0 ∧ v > stop)) l
  ∧ (l = [] ∨ head l = Some start).
Proof.
  unfold Count. destruct (wrap (step * wrap (stop - start)) <=? 0).
  { intros [= <-]. split; [constructor|by left]. }
  intros Hloop.
  destruct (Count_loop_before_stop _ _ _ _ _ _ Hloop) as [_ Hall].
  split; [by apply Hall|].
  destruct fuel as [|fuel]; simpl in Hloop;
    destruct (((step >? 0) && (start <? stop))
              || ((step <? 0) && (start >? stop)));
    try done; try (injection Hloop as <-; by left).
  destruct (Count_loop_before_stop _ _ _ _ _ _ Hloop) as [[k ->] _].
  by right.
Qed.

Lemma Count_before_stop_witness :
  Count 3 10 1 (-3) = Ok [10; 7; 4]
  ∧ Forall (λ v, (-3 > 0 ∧ v < 1) ∨ (-3 < 0 ∧ v > 1)) [10; 7; 4]
  ∧ ([10; 7; 4] = [] ∨ head [10; 7; 4] = Some 10).
Proof.
  assert (H : Count 3 10 1 (-3) = Ok [10; 7; 4]) by reflexivity.
  split; [exact H|]. apply (Count_before_stop 3 10 1 (-3) [10; 7; 4] H).
Defined.

(** ** Cycle, Repeat and Chain *)

Lemma for_up_ext {S} (cnt : nat) (j : Z) (b1 b2 : Z → S → exec S) (s : S) :
  (∀ k s, j ≤ k < j + Z.of_nat cnt → b1 k s = b2 k s) →
  for_up cnt j b1 s = for_up cnt j b2 s.
Proof.
  revert j s. induction cnt as [|cnt IH]; intros j s Hb; [done|].
  cbn [for_up]. rewrite Hb by lia.
  destruct (b2 j s) as [s'| |]; [|done|done].
  cbn [bind]. apply IH. intros k s'' Hk. apply Hb. lia.
Qed.

(** A slice made and then written at every position [i] with a value
    that depends on [i] only. *)
Lemma make_for_up (f : Z → Z) (body : Z → list Z → exec (list Z)) (n : Z) :
  0 ≤ n →
  (∀ i s, 0 ≤ i < n → body i s = set s i (f i)) →
  (results ← make n; for_up (length results) 0 body results)
  = Ok (f <$> seqZ 0 n).
Proof.
  intros Hn Hbody. unfold make.
  destruct (Z.ltb_spec n 0); [lia|]. cbn [bind mbind exec_bind].
  rewrite (for_up_ext _ _ body (λ i s, set s i (f i))).
  - pose proof (for_up_iota f (replicate (Z.to_nat n) 0) []) as Hf.
    cbn [app] in Hf. change (len (@nil Z)) with 0 in Hf. rewrite Hf.
    unfold len. by rewrite length_replicate, Z2Nat.id.
  - intros k s Hk. apply Hbody. rewrite length_replicate in Hk. lia.
Qed.

Lemma Cycle_explicit (iterable : list Z) (n : Z) :
  iterable ≠ [] → 0 ≤ n →
  Cycle iterable n
  = Ok ((λ i, nth (Z.to_nat (i `mod` len iterable)) iterable 0) <$> seqZ 0 n).
Proof.
  intros Hne Hn. unfold Cycle.
  assert (0 < len iterable) as Hm.
  { destruct iterable; [done|]. rewrite len_cons.
    pose proof (len_nonneg iterable). lia. }
  destruct (Z.ltb_spec n 0); [lia|].
  destruct (Z.eqb_spec (len iterable) 0); [lia|]. cbn [orb].
  apply make_for_up; [done|]. intros i s Hi. unfold rem.
  destruct (Z.eqb_spec (len iterable) 0); [lia|]. cbn [bind mbind exec_bind].
  rewrite Z.rem_mod_nonneg by lia.
  pose proof (Z.mod_pos_bound i (len iterable) Hm) as Hk.
  destruct (nth_lookup_or_length iterable
              (Z.to_nat (i `mod` len iterable)) 0) as [Hv|Hv];
    [|unfold len in *; lia].
  by rewrite (get_Ok _ _ _ (proj1 Hk) Hv).
Qed.


Lemma Repeat_replicate (element n : Z) :
  Repeat element n = Ok (replicate (Z.to_nat n) element).
Proof.
  unfold Repeat. destruct (Z.ltb_spec n 0) as [Hneg|Hn].
  - by replace (Z.to_nat n) with 0%nat by lia.
  - rewrite (make_for_up (λ _, element)) by done.
    by rewrite (const_fmap _ _ element), length_seqZ.
Qed.



(** X5. Cycling over a single element is repeating it. *)
Theorem Cycle_singleton (element n : Z) :
  Cycle [element] n = Repeat element n.
Proof.
  rewrite Repeat_replicate. destruct (Z.ltb_spec n 0) as [Hneg|Hn].
  - unfold Cycle. apply Z.ltb_lt in Hneg. rewrite Hneg.
    by replace (Z.to_nat n) with 0%nat by lia.
  - rewrite Cycle_explicit by done.
    rewrite (const_fmap _ _ element), length_seqZ; [done|].
    intros _ i _. change (len [element]) with 1. by rewrite Z.mod_1_r.
Qed.



Lemma Chain_foldl (iterables : list (list Z)) (acc : list Z) :
  foldl (λ results v, results ++ v) acc iterables = acc ++ mjoin iterables.
Proof.
  revert acc. induction iterables as [|v its IH]; intros acc; csimpl.
  - by rewrite app_nil_r.
  - by rewrite IH, app_assoc.
Qed.

(** X7. [Chain] is the concatenation of its arguments in order: it
    distributes over appending argument lists, and chaining the results
    of two calls is chaining all the arguments at once. *)
Theorem Chain_spec (xs ys : list (list Z)) :
  Chain xs = mjoin xs
  ∧ Chain (xs ++ ys) = Chain xs ++ Chain ys
  ∧ Chain [Chain xs; Chain ys] = Chain (xs ++ ys)
  ∧ length (Chain xs) = sum_list (length <$> xs).
Proof.
  assert (∀ l, Chain l = mjoin l) as H.
  { intros l. unfold Chain. by rewrite Chain_foldl. }
  rewrite !H. split; [done|]. split; [apply join_app|].
  split; [|apply length_join].
  csimpl. by rewrite app_nil_r, join_app.
Qed.

(** ** IZip *)

Lemma shortest_foldl (rest : list (list Z)) (a : nat) :
  ∃ m : nat,
    foldl (λ size v, if len v <? size then len v else size) (Z.of_nat a) rest
    = Z.of_nat m
    ∧ (m ≤ a)%nat
    ∧ Forall (λ v, (m ≤ length v)%nat) rest
    ∧ (m = a ∨ ∃ v, v ∈ rest ∧ length v = m).
Proof.
  revert a. induction rest as [|v rest IH]; intros a; csimpl.
  - exists a. split; [done|]. split; [done|]. split; [constructor|by left].
  - destruct (Z.ltb_spec (len v) (Z.of_nat a)) as [Hlt|Hge]; unfold len in *.
    + destruct (IH (length v)) as (m & Hm & Hle & Hall & Hex).
      exists m. split; [done|]. split; [lia|]. split; [by constructor|].
      right. destruct Hex as [->|(w & Hw & Hwl)].
      * exists v. split; [by constructor|done].
      * exists w. split; [by constructor|done].
    + destruct (IH a) as (m & Hm & Hle & Hall & Hex).
      exists m. split; [done|]. split; [done|].
      split; [constructor; [lia|done]|].
      destruct Hex as [->|(w & Hw & Hwl)]; [by left|right].
      exists w. split; [by constructor|done].
Qed.

Lemma IZip_explicit (iterables : list (list Z)) :
  iterables ≠ [] →
  ∃ m : nat,
    IZip iterables
    = Ok ((λ i, (λ v : list Z, nth i v 0) <$> iterables) <$> seq 0 m)
    ∧ Forall (λ v, (m ≤ length v)%nat) iterables
    ∧ ∃ v, v ∈ iterables ∧ length v = m.
Proof.
  destruct iterables as [|first rest]; [done|]. intros _.
  destruct (shortest_foldl rest (length first)) as (m & Hm & Hle & Hall & Hex).
  exists m. split; [|split].
  - unfold IZip. unfold len at 3. rewrite Hm, Z.sub_0_r, Nat2Z.id.
    change 0 with (Z.of_nat 0) at 1.
    rewrite for_up_append with
      (g := λ i, [(λ v : list Z, nth i v 0) <$> first :: rest]).
    + simpl. by rewrite concat_singletons.
    + intros i acc Hi.
      rewrite fill_from_Ok with (g := λ v : list Z, nth i v 0); [done|].
      assert (Forall (λ v, (m ≤ length v)%nat) (first :: rest)) as Hall'
        by by constructor.
      eapply Forall_impl; [exact Hall'|]. intros v Hv. simpl in Hv.
      apply get_of_nat.
      destruct (nth_lookup_or_length v i 0); [done|lia].
  - by constructor.
  - destruct Hex as [->|(w & Hw & Hwl)].
    + exists first. split; [by constructor|done].
    + exists w. split; [by constructor|done].
Qed.

(** X8. [IZip] never panics.  It returns as many tuples as the shortest
    input has elements (none without inputs); tuple [i] has one
    component per input, the [j]-th being element [i] of input [j]. *)
Theorem IZip_spec (iterables : list (list Z)) :
  ∃ results,
    IZip iterables = Ok results
    ∧ (∀ v, v ∈ iterables → (length results ≤ length v)%nat)
    ∧ (iterables = [] → results = [])
    ∧ (iterables ≠ [] → ∃ v, v ∈ iterables ∧ length v = length results)
    ∧ ∀ i t, results !! i = Some t →
        length t = length iterables
        ∧ ∀ j v, iterables !! j = Some v →
            is_Some (v !! i) ∧ t !! j = v !! i.
Proof.
  destruct (decide (iterables = [])) as [->|Hne].
  { exists []. split; [done|]. split; [by intros v ?%elem_of_nil|].
    split; [done|]. split; [done|]. by intros i t ?. }
  destruct (IZip_explicit iterables Hne) as (m & Hzip & Hall & Hex).
  eexists. split; [exact Hzip|]. rewrite length_fmap, length_seq.
  split; [|split; [done|split; [done|]]].
  - intros v Hv. rewrite Forall_forall in Hall. by apply Hall.
  - intros i t Ht. apply list_lookup_fmap_Some in Ht as (k & -> & Hk).
    apply lookup_seq in Hk as [-> Hi]. simpl.
    split; [by rewrite length_fmap|].
    intros j v Hv. rewrite list_lookup_fmap, Hv. simpl.
    rewrite Forall_forall in Hall.
    assert (m ≤ length v)%nat as Hmv
      by (apply Hall; by eapply list_elem_of_lookup_2).
    destruct (nth_lookup_or_length v i 0) as [Hx|]; [|lia].
    rewrite Hx. by split.
Qed.

Lemma IZipLongest_explicit (fillvalue : Z) (iterables : list (list Z)) :
  IZipLongest fillvalue iterables
  = Ok ((λ i, (λ v : list Z, default fillvalue (v !! i)) <$> iterables)
          <$> seq 0 (max_list (length <$> iterables))).
Proof.
  destruct iterables as [|first rest]; [done|].
  unfold IZipLongest. unfold len at 3.
  rewrite longest_foldl, Z.sub_0_r, Nat2Z.id.
  change 0 with (Z.of_nat 0) at 1.
  rewrite for_up_append with
    (g := λ i, [(λ v : list Z, default fillvalue (v !! i)) <$> first :: rest]).
  - simpl. by rewrite concat_singletons.
  - intros i acc _.
    rewrite fill_from_Ok with (g := λ v : list Z, default fillvalue (v !! i));
      [done|].
    apply Forall_forall. intros v _. unfold len.
    destruct (Z.ltb_spec (Z.of_nat i) (Z.of_nat (length v))).
    + destruct (lookup_lt_is_Some_2 v i) as [x Hx]; [lia|].
      rewrite Hx. by apply get_of_nat.
    + rewrite lookup_ge_None_2 by lia. done.
Qed.

Lemma max_list_ge (l : list nat) (x : nat) : x ∈ l → (x ≤ max_list l)%nat.
Proof.
  induction 1 as [x l|x y l _ IH]; simpl; lia.
Qed.

(** X9. The tuples of [IZip] are the first tuples of [IZipLongest] on
    the same inputs, whatever the fill value; the two results are equal
    when all inputs have the same length. *)
Theorem IZip_prefix_of_IZipLongest (fillvalue : Z)
    (iterables : list (list Z)) :
  ∃ short long,
    IZip iterables = Ok short
    ∧ IZipLongest fillvalue iterables = Ok long
    ∧ short = take (length short) long
    ∧ ((∀ v w, v ∈ iterables → w ∈ iterables → length v = length w) →
       short = long).
Proof.
  rewrite IZipLongest_explicit.
  destruct (decide (iterables = [])) as [->|Hne].
  { exists [], []. by repeat split. }
  destruct (IZip_explicit iterables Hne) as (m & -> & Hall & v0 & Hv0 & Hlen0).
  set (M := max_list (length <$> iterables)).
  assert (m ≤ M)%nat as HmM.
  { rewrite <- Hlen0. apply max_list_ge, list_elem_of_fmap. by exists v0. }
  assert (Hsame : (λ i, (λ v : list Z, nth i v 0) <$> iterables) <$> seq 0 m
          = (λ i, (λ v : list Z, default fillvalue (v !! i)) <$> iterables)
              <$> seq 0 m).
  { apply list_fmap_ext. intros k i Hi%lookup_seq.
    apply list_fmap_ext. intros j v Hv.
    rewrite Forall_forall in Hall.
    assert (m ≤ length v)%nat by (apply Hall; by eapply list_elem_of_lookup_2).
    destruct (nth_lookup_or_length v i 0) as [->|]; [done|lia]. }
  eexists _, _. split; [done|]. split; [done|].
  rewrite length_fmap, length_seq, Hsame. split.
  - rewrite <- fmap_take. f_equal.
    replace M with (m + (M - m))%nat by lia.
    by rewrite seq_app, take_app_length' by by rewrite length_seq.
  - intros Heq. replace M with m; [done|].
    apply Nat.le_antisymm; [done|]. unfold M.
    assert (Forall (λ k, (k ≤ m)%nat) (length <$> iterables)) as Hle.
    { apply Forall_fmap, Forall_forall. intros v Hv. simpl.
      rewrite <- Hlen0. by rewrite (Heq v v0). }
    clear -Hle. induction Hle; simpl; lia.
Qed.

(** X10. Zipping twice gives back the inputs, when there is at least one
    input and all inputs have the same positive length: [IZip] is then
    the transposition of a matrix. *)
Theorem IZip_twice (iterables : list (list Z)) (m : nat) :
  iterables ≠ [] → (0 < m)%nat →
  Forall (λ v, length v = m) iterables →
  ∃ tuples, IZip iterables = Ok tuples ∧ IZip tuples = Ok iterables.
Proof.
  intros Hne Hm Hall.
  destruct (IZip_explicit iterables Hne) as (m' & Hzip & _ & v0 & Hv0 & Hlen0).
  assert (m' = m) as ->.
  { rewrite Forall_forall in Hall. rewrite <- Hlen0. by apply Hall. }
  eexists. split; [exact Hzip|].
  set (tuples := (λ i, (λ v : list Z, nth i v 0) <$> iterables) <$> seq 0 m).
  assert (tuples ≠ []) as Hne'.
  { unfold tuples. destruct m; [lia|]. done. }
  destruct (IZip_explicit tuples Hne') as (n & Hzip' & _ & t0 & Ht0 & Hlen0').
  assert (n = length iterables) as ->.
  { rewrite <- Hlen0'. unfold tuples in Ht0.
    apply list_elem_of_fmap in Ht0 as (i & -> & _). by rewrite length_fmap. }
  rewrite Hzip'. f_equal. apply list_eq. intros j.
  rewrite list_lookup_fmap.
  destruct (iterables !! j) as [v|] eqn:Hv.
  - rewrite lookup_seq_lt by (by eapply lookup_lt_Some). simpl. f_equal.
    unfold tuples. rewrite <- list_fmap_compose.
    rewrite Forall_forall in Hall.
    assert (length v = m) as Hvm
      by (apply Hall; by eapply list_elem_of_lookup_2).
    trans ((λ i, nth i v 0) <$> seq 0 (length v)); [|apply fmap_nth_seq].
    rewrite Hvm. apply list_fmap_ext. intros _ i _. simpl.
    rewrite nth_lookup, list_lookup_fmap, Hv. done.
  - rewrite lookup_seq_ge; [done|]. by apply lookup_ge_None.
Qed.

Lemma IZip_twice_witness :
  [[1; 2]; [3; 4]; [5; 6 : Z]] ≠ [] ∧ (0 < 2)%nat
  ∧ Forall (λ v : list Z, length v = 2%nat) [[1; 2]; [3; 4]; [5; 6]]
  ∧ ∃ tuples,
      IZip [[1; 2]; [3; 4]; [5; 6]] = Ok tuples
      ∧ IZip tuples = Ok [[1; 2]; [3; 4]; [5; 6]].
Proof.
  assert (H1 : [[1; 2]; [3; 4]; [5; 6 : Z]] ≠ []) by done.
  assert (H2 : (0 < 2)%nat) by lia.
  assert (H3 : Forall (λ v : list Z, length v = 2%nat)
                 [[1; 2]; [3; 4]; [5; 6]]) by (repeat constructor).
  split; [exact H1|]. split; [exact H2|]. split; [exact H3|].
  apply (IZip_twice [[1; 2]; [3; 4]; [5; 6]] 2 H1 H2 H3).
Defined.

(** ** The filters *)

Lemma filter_none {A} (P : A → Prop) `{∀ x, Decision (P x)} (l : list A) :
  Forall (λ x, ¬ P x) l → filter P l = [].
Proof.
  induction 1 as [|x l Hx _ IH]; [done|].
  by rewrite filter_cons_False.
Qed.

Lemma filter_every {A} (P : A → Prop) `{∀ x, Decision (P x)} (l : list A) :
  Forall P l → filter P l = l.
Proof.
  induction 1 as [|x l Hx _ IH]; [done|].
  by rewrite filter_cons_True, IH.
Qed.

Lemma filter_fmap_index {A B} (P : B → Prop) `{∀ y, Decision (P y)}
    (f : A → B) (l : list A) :
  f <$> filter (λ x, P (f x)) l = filter P (f <$> l).
Proof.
  induction l as [|x l IH]; [done|]. csimpl.
  destruct (decide (P (f x))).
  - rewrite !filter_cons_True by done. csimpl. by rewrite IH.
  - by rewrite !filter_cons_False.
Qed.

Lemma IFilter_filter (predicate : option (Z → bool)) (s : list Z) :
  IFilter predicate s
  = filter (λ v, default (λ v, v >? 0) predicate v = true) s
  ∧ IFilterFalse predicate s
    = filter (λ v, ¬ default (λ v, v >? 0) predicate v = true) s.
Proof.
  unfold IFilter, IFilterFalse.
  destruct predicate as [p|]; simpl; split.
  - by rewrite (foldl_append_filter (λ v, p v = true) p).
  - rewrite (foldl_append_filter (λ v, ¬ p v = true) (λ v, negb (p v)));
      [done|].
    intros v. by destruct (p v).
  - by rewrite (foldl_append_filter (λ v, (v >? 0) = true) (λ v, v >? 0)).
  - rewrite (foldl_append_filter (λ v, ¬ (v >? 0) = true)
               (λ v, negb (v >? 0))); [done|].
    intros v. by destruct (v >? 0).
Qed.

(** X11. With any predicate, or none ("value > 0"), [IFilter] keeps the
    elements that pass the test and [IFilterFalse] those that fail it,
    both in the order of the input, so that together they hold every
    element of the input once. *)
Theorem IFilter_IFilterFalse_split (predicate : option (Z → bool))
    (s : list Z) :
  IFilter predicate s
  = filter (λ v, default (λ v, v >? 0) predicate v = true) s
  ∧ IFilterFalse predicate s
    = filter (λ v, default (λ v, v >? 0) predicate v = false) s
  ∧ IFilter predicate s ++ IFilterFalse predicate s ≡ₚ s
  ∧ (length (IFilter predicate s) + length (IFilterFalse predicate s)
     = length s)%nat.
Proof.
  destruct (IFilter_filter predicate s) as [H1 H2].
  split; [done|]. split; [|split].
  - rewrite H2. apply list_filter_iff. intros v.
    by destruct (default (λ v, v >? 0) predicate v).
  - rewrite H1, H2. apply filter_app_complement.
  - rewrite <- length_app, H1, H2. by rewrite filter_app_complement.
Qed.

(** X12. Filtering twice changes nothing, and the two filters undo each
    other: what [IFilter] keeps, [IFilterFalse] with the same predicate
    drops entirely, and the other way round. *)
Theorem IFilter_twice (predicate : option (Z → bool)) (s : list Z) :
  IFilter predicate (IFilter predicate s) = IFilter predicate s
  ∧ IFilterFalse predicate (IFilterFalse predicate s)
    = IFilterFalse predicate s
  ∧ IFilterFalse predicate (IFilter predicate s) = []
  ∧ IFilter predicate (IFilterFalse predicate s) = [].
Proof.
  pose proof (λ l, proj1 (IFilter_filter predicate l)) as H1.
  pose proof (λ l, proj2 (IFilter_filter predicate l)) as H2.
  rewrite !H1, !H2. repeat split.
  - by apply list_filter_filter_l.
  - by apply list_filter_filter_l.
  - apply filter_none, Forall_forall. intros v Hv%list_elem_of_filter.
    tauto.
  - apply filter_none, Forall_forall. intros v Hv%list_elem_of_filter.
    tauto.
Qed.

(** ** TakeWhile and DropWhile *)

Lemma TakeWhile_loop_acc (p : Z → bool) (l acc : list Z) :
  TakeWhile_loop p l acc = acc ++ TakeWhile_loop p l [].
Proof.
  revert acc. induction l as [|v l IH]; intros acc; simpl.
  - by rewrite app_nil_r.
  - destruct (p v); [|by rewrite app_nil_r].
    rewrite (IH (acc ++ [v])), (IH [v]). by rewrite app_assoc.
Qed.

Lemma TakeWhile_cons (p : Z → bool) (v : Z) (l : list Z) :
  TakeWhile (Some p) (v :: l)
  = if p v then v :: TakeWhile (Some p) l else [].
Proof.
  unfold TakeWhile. simpl. destruct (p v); [|done].
  by rewrite TakeWhile_loop_acc.
Qed.

Lemma DropWhile_kept (p : Z → bool) (l acc : list Z) :
  foldl (λ '(drop, results) v,
           if drop && p v then (drop, results) else (false, results ++ [v]))
    (false, acc) l
  = (false, acc ++ l).
Proof.
  revert acc. induction l as [|v l IH]; intros acc; simpl.
  - by rewrite app_nil_r.
  - by rewrite IH, <- app_assoc.
Qed.

Lemma DropWhile_cons (p : Z → bool) (v : Z) (l : list Z) :
  DropWhile (Some p) (v :: l)
  = if p v then DropWhile (Some p) l else v :: l.
Proof.
  unfold DropWhile. simpl. destruct (p v); [done|].
  by rewrite DropWhile_kept.
Qed.

(** X13. With a predicate, [TakeWhile] and [DropWhile] cut the input in
    two: [TakeWhile] returns the longest prefix whose elements all pass
    the predicate and [DropWhile] the rest, which is empty or starts
    with an element that fails it. *)
Theorem TakeWhile_DropWhile_split (p : Z → bool) (s : list Z) :
  TakeWhile (Some p) s ++ DropWhile (Some p) s = s
  ∧ Forall (λ v, p v = true) (TakeWhile (Some p) s)
  ∧ ∀ v, head (DropWhile (Some p) s) = Some v → p v = false.
Proof.
  induction s as [|v s (IH1 & IH2 & IH3)].
  - split; [done|]. split; [constructor|]. by intros v.
  - rewrite TakeWhile_cons, DropWhile_cons. destruct (p v) eqn:Hv.
    + split; [by rewrite <- app_comm_cons, IH1|].
      split; [by constructor|done].
    + split; [done|]. split; [constructor|].
      intros w [= <-]. done.
Qed.

(** X14. Taking or dropping twice changes nothing more, and nothing is
    left to drop from what was taken, or to take from what was left. *)
Theorem TakeWhile_DropWhile_twice (p : Z → bool) (s : list Z) :
  TakeWhile (Some p) (TakeWhile (Some p) s) = TakeWhile (Some p) s
  ∧ DropWhile (Some p) (TakeWhile (Some p) s) = []
  ∧ DropWhile (Some p) (DropWhile (Some p) s) = DropWhile (Some p) s
  ∧ TakeWhile (Some p) (DropWhile (Some p) s) = [].
Proof.
  induction s as [|v s (IH1 & IH2 & IH3 & IH4)]; [done|].
  rewrite TakeWhile_cons, DropWhile_cons. destruct (p v) eqn:Hv.
  - rewrite TakeWhile_cons, DropWhile_cons, Hv, IH1, IH2. done.
  - rewrite TakeWhile_cons, DropWhile_cons, Hv. done.
Qed.

(** ** Compress *)

Lemma Compress_explicit (data selectors : list Z) :
  Compress data selectors
  = Ok ((λ i, nth i data 0)
          <$> filter (λ i, 0 < nth i selectors 0)
                (seq 0 (length data `min` length selectors))).
Proof.
  unfold Compress. rewrite Z.sub_0_r.
  set (n := if len selectors <? len data then len selectors else len data).
  assert (Hn : Z.to_nat n = (length data `min` length selectors)%nat).
  { subst n. unfold len.
    destruct (Z.ltb_spec (Z.of_nat (length selectors))
                (Z.of_nat (length data))); lia. }
  rewrite Hn. change 0 with (Z.of_nat 0) at 1.
  rewrite for_up_append with
    (g := λ i, if decide (0 < nth i selectors 0) then [nth i data 0] else []).
  - simpl. by rewrite concat_select.
  - intros i acc Hi.
    destruct (nth_lookup_or_length selectors i 0) as [Hs|]; [|lia].
    destruct (nth_lookup_or_length data i 0) as [Hd|]; [|lia].
    rewrite (get_of_nat _ _ _ Hs). simpl.
    destruct (Z.gtb_spec (nth i selectors 0) 0),
      (decide (0 < nth i selectors 0)); try lia.
    + by rewrite (get_of_nat _ _ _ Hd).
    + by rewrite app_nil_r.
Qed.

(** X15. [Compress] never panics and only leaves elements out: its
    result is a subsequence of [data], and of the part of [data] that
    has a selector when there are fewer selectors. *)
Theorem Compress_sublist (data selectors : list Z) :
  ∃ results,
    Compress data selectors = Ok results
    ∧ results `sublist_of` take (length selectors) data
    ∧ results `sublist_of` data.
Proof.
  eexists. split; [apply Compress_explicit|].
  assert (∀ m, (m ≤ length data)%nat →
            (λ i, nth i data 0) <$> seq 0 m = take m data) as Htake.
  { intros m Hm. by rewrite take_fmap_seq. }
  assert ((λ i, nth i data 0)
            <$> filter (λ i, 0 < nth i selectors 0)
                  (seq 0 (length data `min` length selectors))
          `sublist_of` take (length selectors) data) as Hsub.
  { trans ((λ i, nth i data 0)
             <$> seq 0 (length data `min` length selectors)).
    - apply fmap_sublist, sublist_filter.
    - rewrite Htake by lia.
      destruct (decide (length selectors ≤ length data)%nat).
      + by rewrite Nat.min_r by done.
      + rewrite Nat.min_l, !take_ge by lia. done. }
  split; [done|]. etrans; [exact Hsub|]. apply sublist_take.
Qed.

(** X16. Compressing a sequence by itself keeps its positive elements:
    it is [IFilter] without a predicate. *)
Theorem Compress_self (data : list Z) :
  Compress data data = Ok (IFilter None data).
Proof.
  rewrite Compress_explicit, Nat.min_id. f_equal.
  rewrite (proj1 (IFilter_filter None data)). simpl.
  rewrite (filter_fmap_index (λ v, 0 < v) (λ i, nth i data 0)).
  rewrite fmap_nth_seq. apply list_filter_iff. intros v.
  destruct (Z.gtb_spec v 0); split; (done || lia).
Qed.

(** X17. With [Repeat] as the selectors: all ones keep [data] as it is,
    all zeros drop every element. *)
Theorem Compress_Repeat (data : list Z) :
  ∃ ones zeros,
    Repeat 1 (len data) = Ok ones
    ∧ Repeat 0 (len data) = Ok zeros
    ∧ Compress data ones = Ok data
    ∧ Compress data zeros = Ok [].
Proof.
  eexists _, _. split; [apply Repeat_replicate|]. split; [apply Repeat_replicate|].
  unfold len. rewrite Nat2Z.id, !Compress_explicit, !length_replicate,
    Nat.min_id.
  split; f_equal.
  - rewrite filter_every; [apply fmap_nth_seq|].
    apply Forall_forall. intros i Hi%elem_of_seq.
    rewrite (nth_lookup_Some _ _ _ 1); [done|].
    apply lookup_replicate_2. lia.
  - rewrite filter_none; [done|].
    apply Forall_forall. intros i Hi%elem_of_seq.
    rewrite (nth_lookup_Some _ _ _ 0); [done|].
    apply lookup_replicate_2. lia.
Qed.

(** ** The generators on the elements of the pool *)

(** X18. A negative [r] passes the guard of lines 344 and 413, and the
    [make] of a slice of negative length panics: [Permutations] and
    [Combinations] do not return, for any pool. *)
Theorem negative_r_panics (fuel : nat) (pool : list Z) (r : Z) :
  r < 0 →
  Permutations fuel pool r = Panic ∧ Combinations fuel pool r = Panic.
Proof.
  intros Hr. pose proof (len_nonneg pool) as Hn.
  unfold Permutations, Combinations.
  destruct (Z.gtb_spec r (len pool)) as [?|_]; [lia|].
  destruct (Z.eqb_spec r 0) as [?|_]; [lia|]. cbn [orb].
  split.
  - pose proof (make_fill (λ i, i) (length pool)) as Hfill.
    cbn [bind mbind exec_bind] in Hfill |- *.
    change (len pool) with (Z.of_nat (length pool)).
    destruct (make (Z.of_nat (length pool))) as [indices| |]; try done.
    cbn [bind mbind exec_bind] in Hfill |- *.
    rewrite Hfill. cbn [bind mbind exec_bind].
    unfold make. by destruct (Z.ltb_spec r 0); [|lia].
  - unfold make. by destruct (Z.ltb_spec r 0); [|lia].
Qed.

Lemma negative_r_panics_witness :
  -1 < 0
  ∧ Permutations 5 [1; 2] (-1) = Panic ∧ Combinations 5 [1; 2] (-1) = Panic.
Proof.
  assert (H : -1 < 0) by lia.
  split; [exact H|]. apply (negative_r_panics 5 [1; 2] (-1) H).
Defined.

Lemma image_arrangements (pool : list Z) (k : nat) :
  image pool <$> arrangements k (seq 0 (length pool)) = arrangements k pool.
Proof.
  unfold image. by rewrite <- arrangements_fmap, fmap_nth_seq.
Qed.

Lemma image_sublists (pool : list Z) (k : nat) :
  image pool <$> sublists k (seq 0 (length pool)) = sublists k pool.
Proof.
  unfold image. by rewrite <- sublists_fmap, fmap_nth_seq.
Qed.

(** With enough rounds of the main loop, [Permutations] returns the
    arrangements of the pool. *)
Lemma Permutations_run (fuel : nat) (pool : list Z) (k : nat) :
  (1 ≤ k ≤ length pool)%nat → (ffact (length pool) k ≤ fuel)%nat →
  Permutations fuel pool (Z.of_nat k) = Ok (arrangements k pool).
Proof.
  intros Hr Hfuel. set (n := length pool) in *.
  rewrite <- image_arrangements. fold n.
  unfold Permutations.
  destruct (Z.gtb_spec (Z.of_nat k) (len pool)) as [Hgt|_];
    [unfold len in Hgt; lia|].
  destruct (Z.eqb_spec (Z.of_nat k) 0) as [?|_]; [lia|]. cbn [orb].
  pose proof (make_fill (λ i, i) n) as Hfill.
  cbn [bind mbind exec_bind] in Hfill |- *.
  change (len pool) with (Z.of_nat n).
  destruct (make (Z.of_nat n)) as [indices| |]; try done.
  cbn [bind mbind exec_bind] in Hfill |- *.
  rewrite Hfill, list_fmap_id. cbn [bind mbind exec_bind].
  clear Hfill indices.
  pose proof (make_fill (λ i, Z.of_nat n - i) k) as Hfill.
  cbn [bind mbind exec_bind] in Hfill |- *.
  destruct (make (Z.of_nat k)) as [cycles| |]; try done.
  cbn [bind mbind exec_bind] in Hfill |- *.
  rewrite Hfill, cycles0_seqZ, Z.sub_0_r. cbn [bind mbind exec_bind].
  clear Hfill cycles.
  pose proof (in_pool_seqZ pool) as Hin0.
  change (len pool) with (Z.of_nat n) in Hin0.
  rewrite Nat2Z.id.
  rewrite gather_imageZ by (by apply Forall_take).
  cbn [bind mbind exec_bind].
  destruct (pnext_trace k (seqZ 0 (Z.of_nat n)))
    as (l & Htrace & Hobs & Hinv); [rewrite length_seqZ; lia|].
  rewrite len_seqZ in Htrace.
  rewrite (Permutations_loop_trace pool k _ _ _ Htrace).
  - destruct (trace_starts _ _ _ _ Htrace) as [l' ->].
    f_equal. cbn [tail fst].
    trans (imageZ pool <$> arrangements k (seqZ 0 (Z.of_nat n))).
    + rewrite <- Hobs. csimpl. f_equal. by rewrite <- list_fmap_compose.
    + rewrite seqZ_seq, arrangements_fmap, <- list_fmap_compose.
      apply list_fmap_ext. intros _ p _. apply imageZ_of_nat.
  - lia.
  - eapply Forall_impl; [done|]. intros s (Hp & Hl & Hok).
    by apply perm_state_ok_Permutation.
  - rewrite <- (length_fmap (λ s : list Z * list Z, take k s.1)), Hobs.
    rewrite arrangements_length, length_seqZ, Nat2Z.id. done.
Qed.

(** With enough rounds of the main loop, [Combinations] returns the
    subsequences of the pool of the given length. *)
Lemma Combinations_run (fuel : nat) (pool : list Z) (k : nat) :
  (1 ≤ k ≤ length pool)%nat → (choose (length pool) k ≤ fuel)%nat →
  Combinations fuel pool (Z.of_nat k) = Ok (sublists k pool).
Proof.
  intros Hr Hfuel. set (n := length pool) in *.
  rewrite <- image_sublists. fold n.
  unfold Combinations.
  destruct (Z.gtb_spec (Z.of_nat k) (len pool)) as [Hgt|_];
    [unfold len in Hgt; lia|].
  destruct (Z.eqb_spec (Z.of_nat k) 0) as [?|_]; [lia|]. cbn [orb].
  pose proof (make_fill (λ i, i) k) as Hfill.
  cbn [bind mbind exec_bind] in Hfill |- *.
  destruct (make (Z.of_nat k)) as [indices| |]; try done.
  cbn [bind mbind exec_bind] in Hfill |- *.
  rewrite Hfill, list_fmap_id. cbn [bind mbind exec_bind].
  pose proof (cnext_trace (Z.of_nat n) n k 0 ltac:(lia) ltac:(lia))
    as Htrace.
  pose proof (combination_positions_in_pool pool k) as Hin.
  unfold combination_positions in *. fold n in Hin |- *.
  rewrite (seqZ_seq n), sublists_fmap in Htrace.
  destruct (trace_starts _ _ _ _ Htrace) as [l' Hl'].
  rewrite Hl' in Hin, Htrace.
  rewrite gather_imageZ by by apply Forall_cons in Hin as [? _].
  cbn [bind mbind exec_bind].
  rewrite <- (len_seqZ 0 k) at 1.
  rewrite (Combinations_loop_trace _ _ _ _ _ Htrace); [|done|].
  - f_equal. cbn [tail].
    change (imageZ pool <$> (seqZ 0 (Z.of_nat k) :: l')
            = image pool <$> sublists k (seq 0 n)).
    rewrite <- Hl', <- list_fmap_compose. apply list_fmap_ext.
    intros _ p _. apply imageZ_of_nat.
  - rewrite <- Hl', length_fmap, sublists_length, length_seq. done.
Qed.

(** With enough rounds of the main loop, [Product] returns the cartesian
    product. *)
Lemma Product_run (fuel : nat) (pools : list (list Z)) :
  (prod_list (length <$> pools) ≤ fuel)%nat →
  Product fuel pools = Ok (cart pools).
Proof.
  intros Hfuel. unfold Product, make.
  destruct (Z.ltb_spec (len pools) 0) as [Hneg|_];
    [pose proof (len_nonneg pools); lia|].
  replace (Z.to_nat (len pools)) with (length pools) by (unfold len; lia).
  simpl.
  pose proof (Product_first_spec pools) as Hfirst.
  destruct (Product_first pools) as [result|].
  - destruct Hfirst as [Hne ->].
    destruct (incr_trace pools Hne) as (l & Htrace & Hsel & Hin).
    rewrite (Product_loop_trace _ _ _ _ Htrace); [|done|].
    + destruct (trace_starts _ _ _ _ Htrace) as [l' ->].
      by rewrite <- Hsel.
    + rewrite <- (length_fmap (select pools)), Hsel, cart_length. done.
  - by rewrite cart_empty_pool.
Qed.

Section Tuples.
#[local] Open Scope nat_scope.
Context {A : Type}.
Implicit Types (l t : list A).

(** The subsequences of length [r], as stdpp's [sublist] has them. *)
Lemma sublists_elem_of_sublist r l t :
  t ∈ sublists r l ↔ length t = r ∧ t `sublist_of` l.
Proof.
  split.
  - revert r t. induction l as [|x l IH]; intros [|r] t; simpl.
    + intros ->%list_elem_of_singleton. split; [done|]. constructor.
    + by intros ?%elem_of_nil.
    + intros ->%list_elem_of_singleton. split; [done|]. apply sublist_nil_l.
    + rewrite elem_of_app, list_elem_of_fmap.
      intros [(t' & -> & Ht')|Ht].
      * destruct (IH _ _ Ht') as [Hlen Hsub].
        split; [simpl; lia|by constructor].
      * destruct (IH _ _ Ht) as [Hlen Hsub].
        split; [done|by constructor].
  - intros [Hlen Hsub]. revert r Hlen.
    induction Hsub as [|x t l Hsub IH|x t l Hsub IH]; intros r Hlen.
    + subst r. simpl. by constructor.
    + subst r. simpl. apply elem_of_app. left.
      apply list_elem_of_fmap. exists t. split; [done|]. by apply IH.
    + destruct r as [|r].
      * destruct t; [|done]. simpl. by constructor.
      * simpl. apply elem_of_app. right. by apply IH.
Qed.

Lemma sublists_all l : sublists (length l) l = [l].
Proof.
  induction l as [|x l IH]; [done|]. simpl.
  rewrite IH, sublists_short by lia. done.
Qed.

Lemma sublists_1 l : sublists 1 l = (λ x, [x]) <$> l.
Proof.
  induction l as [|x l IH]; [done|]. simpl.
  by rewrite sublists_0, IH.
Qed.

Lemma arrangements_1_from (pre l : list A) :
  (picks_from pre l ≫= λ '(x, rest), cons x <$> arrangements 0 rest)
  = (λ x, [x]) <$> l.
Proof.
  revert pre. induction l as [|x l IH]; intros pre; [done|].
  cbn [picks_from]. rewrite bind_cons, IH. done.
Qed.

Lemma arrangements_1 l : arrangements 1 l = (λ x, [x]) <$> l.
Proof. apply arrangements_1_from. Qed.

(** The arrangements of all the elements are the permutations. *)
Lemma arrangements_all l t :
  t ∈ arrangements (length l) l ↔ t ≡ₚ l.
Proof.
  remember (length l) as n eqn:Hn. revert l t Hn.
  induction n as [|n IH]; intros l t Hn.
  - destruct l; [|done]. simpl. rewrite list_elem_of_singleton.
    split; [by intros ->|]. by intros ->%Permutation_nil_r.
  - rewrite arrangements_S, list_elem_of_bind. split.
    + intros ([y rest] & Ht & Hpick).
      apply list_elem_of_fmap in Ht as (t' & -> & Ht').
      apply picks_from_elem_of in Hpick as (l1 & l2 & -> & ->).
      simpl in *. rewrite length_app in Hn. simpl in Hn.
      apply IH in Ht'; [|rewrite length_app; lia].
      rewrite Ht'. apply Permutation_middle.
    + intros Hp. destruct t as [|y t].
      { apply Permutation_length in Hp. simpl in Hp. lia. }
      apply Permutation_cons_inv_l in Hp as (l1 & l2 & -> & Hp).
      exists (y, l1 ++ l2). split.
      * apply list_elem_of_fmap. exists t. split; [done|].
        apply IH; [|done]. rewrite length_app in *. simpl in Hn. lia.
      * apply picks_from_elem_of. by exists l1, l2.
Qed.

Lemma arrangements_head r l :
  r ≤ length l → head (arrangements r l) = Some (take r l).
Proof.
  revert l. induction r as [|r IH]; intros l Hr.
  - by rewrite take_0.
  - destruct l as [|x l]; [simpl in Hr; lia|].
    rewrite arrangements_S. cbn [picks_from app]. rewrite bind_cons.
    rewrite head_lookup. apply lookup_app_l_Some.
    rewrite list_lookup_fmap, <- head_lookup, IH by (simpl in Hr; lia).
    done.
Qed.

Lemma sublists_head r l :
  r ≤ length l → head (sublists r l) = Some (take r l).
Proof.
  revert r. induction l as [|x l IH]; intros [|r] Hr; simpl in *;
    try done; try lia.
  rewrite head_lookup. apply lookup_app_l_Some.
  rewrite list_lookup_fmap, <- head_lookup, IH by lia. done.
Qed.

Lemma cart_NoDup (pools : list (list A)) :
  Forall NoDup pools → NoDup (cart pools).
Proof.
  induction 1 as [|pool pools Hpool _ IH]; [apply NoDup_singleton|].
  rewrite cart_cons. apply NoDup_bind; [|intros x _|done].
  - intros x1 x2 t _ _ (t1 & -> & _)%list_elem_of_fmap
      (t2 & [= -> _] & _)%list_elem_of_fmap. done.
  - apply NoDup_fmap_2; [by intros ?? [=]|done].
Qed.

End Tuples.

Lemma StronglySorted_lt_NoDup (p : list nat) :
  StronglySorted lt p → NoDup p.
Proof.
  induction 1 as [|x p _ IH Hx]; constructor; [|done].
  intros Hin. rewrite Forall_forall in Hx. specialize (Hx x Hin). lia.
Qed.

Lemma sublists_subseteq_arrangements (pool : list Z) (r : nat) :
  sublists r pool ⊆ arrangements r pool.
Proof.
  rewrite <- image_sublists, <- image_arrangements.
  intros t (p & -> & Hp)%list_elem_of_fmap.
  apply list_elem_of_fmap. exists p. split; [done|].
  apply sublists_seq_elem_of in Hp as (Hlen & Hsort & Hall).
  apply arrangements_elem_of; [apply NoDup_seq|].
  split; [done|]. split; [by apply StronglySorted_lt_NoDup|].
  intros i Hi. rewrite Forall_forall in Hall. by apply elem_of_seq, Hall.
Qed.

(** X19. For [1 <= r <= n], the tuples of [Combinations] are the
    subsequences of the pool of length [r]: each tuple keeps the order
    the elements have in the pool, and every subsequence of that length
    is returned. *)
Theorem Combinations_subsequences (fuel : nat) (pool : list Z) (r : nat) :
  (1 ≤ r ≤ length pool)%nat → (choose (length pool) r ≤ fuel)%nat →
  ∃ tuples,
    Combinations fuel pool (Z.of_nat r) = Ok tuples
    ∧ ∀ t, t ∈ tuples ↔ length t = r ∧ t `sublist_of` pool.
Proof.
  intros Hr Hfuel. eexists. split; [by apply Combinations_run|].
  intros t. apply sublists_elem_of_sublist.
Qed.

Lemma Combinations_subsequences_witness :
  (1 ≤ 2 ≤ length [1; 2; 3]%Z)%nat
  ∧ (choose (length [1; 2; 3]%Z) 2 ≤ 3)%nat
  ∧ ∃ tuples,
      Combinations 3 [1; 2; 3] (Z.of_nat 2) = Ok tuples
      ∧ ∀ t, t ∈ tuples ↔ length t = 2%nat ∧ t `sublist_of` [1; 2; 3].
Proof.
  assert (H1 : (1 ≤ 2 ≤ length [1; 2; 3]%Z)%nat) by (simpl; lia).
  assert (H2 : (choose (length [1; 2; 3]%Z) 2 ≤ 3)%nat) by (simpl; lia).
  split; [exact H1|]. split; [exact H2|].
  apply (Combinations_subsequences 3 [1; 2; 3] 2 H1 H2).
Defined.

(** X20. With [r] the length of a non-empty pool, [Permutations]
    returns [n!] tuples, and they are the permutations of the pool:
    every tuple is one, and every permutation is returned. *)
Theorem Permutations_all (fuel : nat) (pool : list Z) :
  pool ≠ [] → (fact (length pool) ≤ fuel)%nat →
  ∃ tuples,
    Permutations fuel pool (len pool) = Ok tuples
    ∧ length tuples = fact (length pool)
    ∧ ∀ t, t ∈ tuples ↔ t ≡ₚ pool.
Proof.
  intros Hne Hfuel.
  assert (ffact (length pool) (length pool) = fact (length pool)) as Hff.
  { pose proof (ffact_fact (length pool) (length pool) (le_n _)) as H.
    rewrite Nat.sub_diag in H. simpl in H. lia. }
  eexists. split; [|split].
  - unfold len. apply Permutations_run; [|by rewrite Hff].
    destruct pool; [done|]. simpl. lia.
  - by rewrite arrangements_length.
  - intros t. apply arrangements_all.
Qed.

Lemma Permutations_all_witness :
  [1; 2; 3]%Z ≠ [] ∧ (fact (length [1; 2; 3]%Z) ≤ 6)%nat
  ∧ ∃ tuples,
      Permutations 6 [1; 2; 3] (len [1; 2; 3]%Z) = Ok tuples
      ∧ length tuples = fact (length [1; 2; 3]%Z)
      ∧ ∀ t, t ∈ tuples ↔ t ≡ₚ [1; 2; 3].
Proof.
  assert (H1 : [1; 2; 3]%Z ≠ []) by done.
  assert (H2 : (fact (length [1; 2; 3]%Z) ≤ 6)%nat) by (simpl; lia).
  split; [exact H1|]. split; [exact H2|].
  apply (Permutations_all 6 [1; 2; 3] H1 H2).
Defined.

(** X21. For [1 <= r <= n], every tuple [Combinations] returns is also
    returned by [Permutations] for the same pool and [r]. *)
Theorem Combinations_among_Permutations (fuel1 fuel2 : nat) (pool : list Z)
    (r : nat) :
  (1 ≤ r ≤ length pool)%nat →
  (choose (length pool) r ≤ fuel1)%nat →
  (fact (length pool) / fact (length pool - r) ≤ fuel2)%nat →
  ∃ combinations permutations,
    Combinations fuel1 pool (Z.of_nat r) = Ok combinations
    ∧ Permutations fuel2 pool (Z.of_nat r) = Ok permutations
    ∧ combinations ⊆ permutations.
Proof.
  intros Hr Hf1 Hf2. rewrite <- ffact_div in Hf2 by lia.
  eexists _, _. split; [by apply Combinations_run|].
  split; [by apply Permutations_run|].
  apply sublists_subseteq_arrangements.
Qed.

Lemma Combinations_among_Permutations_witness :
  (1 ≤ 2 ≤ length [1; 2; 3]%Z)%nat
  ∧ (choose (length [1; 2; 3]%Z) 2 ≤ 3)%nat
  ∧ (fact (length [1; 2; 3]%Z) / fact (length [1; 2; 3]%Z - 2) ≤ 6)%nat
  ∧ ∃ combinations permutations,
      Combinations 3 [1; 2; 3] (Z.of_nat 2) = Ok combinations
      ∧ Permutations 6 [1; 2; 3] (Z.of_nat 2) = Ok permutations
      ∧ combinations ⊆ permutations.
Proof.
  assert (H1 : (1 ≤ 2 ≤ length [1; 2; 3]%Z)%nat) by (simpl; lia).
  assert (H2 : (choose (length [1; 2; 3]%Z) 2 ≤ 3)%nat) by (simpl; lia).
  assert (H3 : (fact (length [1; 2; 3]%Z) / fact (length [1; 2; 3]%Z - 2)
                ≤ 6)%nat) by (vm_compute; lia).
  split; [exact H1|]. split; [exact H2|]. split; [exact H3|].
  apply (Combinations_among_Permutations 3 6 [1; 2; 3] 2 H1 H2 H3).
Defined.

(** X22. For [1 <= r <= n], the first tuple of [Permutations] and of
    [Combinations] is the first [r] elements of the pool. *)
Theorem generators_start_with_prefix (fuel : nat) (pool : list Z) (r : nat) :
  (1 ≤ r ≤ length pool)%nat →
  (fact (length pool) / fact (length pool - r) ≤ fuel)%nat →
  (choose (length pool) r ≤ fuel)%nat →
  ∃ permutations combinations,
    Permutations fuel pool (Z.of_nat r) = Ok permutations
    ∧ Combinations fuel pool (Z.of_nat r) = Ok combinations
    ∧ head permutations = Some (take r pool)
    ∧ head combinations = Some (take r pool).
Proof.
  intros Hr Hf1 Hf2. rewrite <- ffact_div in Hf1 by lia.
  eexists _, _. split; [by apply Permutations_run|].
  split; [by apply Combinations_run|].
  split; [apply arrangements_head|apply sublists_head]; lia.
Qed.

Lemma generators_start_with_prefix_witness :
  (1 ≤ 2 ≤ length [1; 2; 3]%Z)%nat
  ∧ (fact (length [1; 2; 3]%Z) / fact (length [1; 2; 3]%Z - 2) ≤ 6)%nat
  ∧ (choose (length [1; 2; 3]%Z) 2 ≤ 6)%nat
  ∧ ∃ permutations combinations,
      Permutations 6 [1; 2; 3] (Z.of_nat 2) = Ok permutations
      ∧ Combinations 6 [1; 2; 3] (Z.of_nat 2) = Ok combinations
      ∧ head permutations = Some (take 2 [1; 2; 3])
      ∧ head combinations = Some (take 2 [1; 2; 3]).
Proof.
  assert (H1 : (1 ≤ 2 ≤ length [1; 2; 3]%Z)%nat) by (simpl; lia).
  assert (H2 : (fact (length [1; 2; 3]%Z) / fact (length [1; 2; 3]%Z - 2)
                ≤ 6)%nat) by (vm_compute; lia).
  assert (H3 : (choose (length [1; 2; 3]%Z) 2 ≤ 6)%nat) by (simpl; lia).
  split; [exact H1|]. split; [exact H2|]. split; [exact H3|].
  apply (generators_start_with_prefix 6 [1; 2; 3] 2 H1 H2 H3).
Defined.

(** X23. With [r = 1] on a non-empty pool, [Permutations] and
    [Combinations] return the same thing as [Product] of the pool alone:
    one 1-tuple per element, in the order of the pool. *)
Theorem generators_of_one (fuel : nat) (pool : list Z) :
  pool ≠ [] → (length pool ≤ fuel)%nat →
  Permutations fuel pool 1 = Ok ((λ x, [x]) <$> pool)
  ∧ Combinations fuel pool 1 = Ok ((λ x, [x]) <$> pool)
  ∧ Product fuel [pool] = Ok ((λ x, [x]) <$> pool).
Proof.
  intros Hne Hfuel.
  assert (1 ≤ 1 ≤ length pool)%nat as Hr
    by (destruct pool; [done|simpl; lia]).
  split; [|split].
  - rewrite <- arrangements_1.
    apply (Permutations_run fuel pool 1 Hr). simpl. lia.
  - rewrite <- sublists_1.
    apply (Combinations_run fuel pool 1 Hr).
    rewrite <- sublists_length, sublists_1, length_fmap. done.
  - rewrite Product_run by (simpl; lia). f_equal.
Qed.

Lemma generators_of_one_witness :
  [7; 8]%Z ≠ [] ∧ (length [7; 8]%Z ≤ 2)%nat
  ∧ Permutations 2 [7; 8] 1 = Ok ((λ x, [x]) <$> [7; 8])
  ∧ Combinations 2 [7; 8] 1 = Ok ((λ x, [x]) <$> [7; 8])
  ∧ Product 2 [[7; 8]] = Ok ((λ x, [x]) <$> [7; 8]).
Proof.
  assert (H1 : [7; 8]%Z ≠ []) by done.
  assert (H2 : (length [7; 8]%Z ≤ 2)%nat) by (simpl; lia).
  split; [exact H1|]. split; [exact H2|].
  apply (generators_of_one 2 [7; 8] H1 H2).
Defined.

(** X24. With [r] the length of a non-empty pool, [Combinations] returns
    one tuple, the pool itself, after a single round of the main
    loop. *)
Theorem Combinations_all (fuel : nat) (pool : list Z) :
  pool ≠ [] → Combinations (S fuel) pool (len pool) = Ok [pool].
Proof.
  intros Hne. rewrite <- sublists_all. unfold len.
  apply Combinations_run.
  - destruct pool; [done|]. simpl. lia.
  - rewrite <- sublists_length, sublists_all. simpl. lia.
Qed.

Lemma Combinations_all_witness :
  [1; 2; 3]%Z ≠ [] ∧ Combinations 1 [1; 2; 3] (len [1; 2; 3]%Z) = Ok [[1; 2; 3]].
Proof.
  assert (H : [1; 2; 3]%Z ≠ []) by done.
  split; [exact H|]. apply (Combinations_all 0 [1; 2; 3] H).
Defined.

(** X25. [Product] builds its tuples pool by pool: the result for
    [pool :: pools] is, for each element of [pool] in order, that
    element put in front of every tuple of the result for [pools]. *)
Theorem Product_cons (fuel1 fuel2 : nat) (pool : list Z)
    (pools : list (list Z)) :
  (prod_list (length <$> pools) ≤ fuel1)%nat →
  (prod_list (length <$> pool :: pools) ≤ fuel2)%nat →
  ∃ tuples,
    Product fuel1 pools = Ok tuples
    ∧ Product fuel2 (pool :: pools) = Ok (x ← pool; cons x <$> tuples).
Proof.
  intros H1 H2. eexists. split; [by apply Product_run|].
  by rewrite Product_run.
Qed.

Lemma Product_cons_witness :
  (prod_list (length <$> [[3; 4]]%Z) ≤ 2)%nat
  ∧ (prod_list (length <$> [1; 2]%Z :: [[3; 4]]%Z) ≤ 4)%nat
  ∧ ∃ tuples,
      Product 2 [[3; 4]] = Ok tuples
      ∧ Product 4 ([1; 2] :: [[3; 4]]) = Ok (x ← [1; 2]; cons x <$> tuples).
Proof.
  assert (H1 : (prod_list (length <$> [[3; 4]]%Z) ≤ 2)%nat) by (simpl; lia).
  assert (H2 : (prod_list (length <$> [1; 2]%Z :: [[3; 4]]%Z) ≤ 4)%nat)
    by (simpl; lia).
  split; [exact H1|]. split; [exact H2|].
  apply (Product_cons 2 4 [1; 2] [[3; 4]] H1 H2).
Defined.

(** X26. [Product] returns no tuple twice when no pool holds an element
    twice. *)
Theorem Product_NoDup (fuel : nat) (pools : list (list Z)) :
  (prod_list (length <$> pools) ≤ fuel)%nat →
  Forall NoDup pools →
  ∃ tuples, Product fuel pools = Ok tuples ∧ NoDup tuples.
Proof.
  intros Hfuel Hnd. eexists. split; [by apply Product_run|].
  by apply cart_NoDup.
Qed.

Lemma Product_NoDup_witness :
  (prod_list (length <$> [[1; 2]; [3; 4]]%Z) ≤ 4)%nat
  ∧ Forall NoDup [[1; 2]; [3; 4]]%Z
  ∧ ∃ tuples, Product 4 [[1; 2]; [3; 4]] = Ok tuples ∧ NoDup tuples.
Proof.
  assert (H1 : (prod_list (length <$> [[1; 2]; [3; 4]]%Z) ≤ 4)%nat)
    by (simpl; lia).
  assert (H2 : Forall NoDup [[1; 2]; [3; 4]]%Z).
  { apply (bool_decide_unpack _). vm_compute. exact I. }
  split; [exact H1|]. split; [exact H2|].
  apply (Product_NoDup 4 [[1; 2]; [3; 4]] H1 H2).
Defined.
